(** * Song of the day: selection engine and daily trigger

    A shallow embedding of [discord_bot/song_of_day_test.py] (the version
    with scheduled overrides, whose [pick_song] is marked authoritative)
    and of the selection core of [discord_bot/song_of_day_bot.py].

    Python sets are [gset string], the scheduled-songs dict is a
    [gmap string string], the channel dict is an insertion-ordered
    association list, the state files are fields of a record, and every
    function that touches files, Discord or can raise lives in a small
    state-and-exception monad whose state survives a raise. *)

From Stdlib Require Import Strings.String Strings.Ascii NArith Arith Lia List.
From stdpp Require Import base option list gmap strings sorting.

Local Open Scope string_scope.
Local Open Scope nat_scope.

(** ** Calendar dates: [datetime.date] *)

Local Open Scope N_scope.

Record date := mkdate { year : N; month : N; day : N }.

Record datetime := mkdatetime
  { dt_date : date; hour : N; minute : N; second : N }.

#[global] Instance date_eq_dec : EqDecision date.
Proof. solve_decision. Defined.

Definition is_leap (y : N) : bool :=
  (y mod 4 =? 0) && (negb (y mod 100 =? 0) || (y mod 400 =? 0)).

Definition days_in_month (y m : N) : N :=
  match m with
  | 2 => if is_leap y then 29 else 28
  | 4 | 6 | 9 | 11 => 30
  | _ => 31
  end.

(** The range check of the [date(y, m, d)] constructor
    (MINYEAR = 1, MAXYEAR = 9999). *)
Definition date_ok (y m d : N) : bool :=
  (1 <=? y) && (y <=? 9999) && (1 <=? m) && (m <=? 12)
  && (1 <=? d) && (d <=? days_in_month y m).

Definition valid_date (d : date) : Prop :=
  date_ok (year d) (month d) (day d) = true.

(** [d1 <= d2] on dates: Python compares the (year, month, day) triples. *)
Definition date_le (a b : date) : bool :=
  (year a <? year b)
  || ((year a =? year b)
      && ((month a <? month b)
          || ((month a =? month b) && (day a <=? day b)))).

(** [d.isoformat()] is ["%04d-%02d-%02d"]. *)
Definition digit (n : N) : ascii := ascii_of_N (48 + n mod 10).

Definition pad2 (n : N) : string :=
  String (digit (n / 10)) (String (digit n) "").

Definition pad4 (n : N) : string :=
  String (digit (n / 1000)) (String (digit (n / 100)) (pad2 n)).

Definition isoformat (d : date) : string :=
  pad4 (year d) ++ "-" ++ pad2 (month d) ++ "-" ++ pad2 (day d).

(** [date.fromisoformat(s)] on the form YYYY-MM-DD, the one [isoformat]
    writes, the bot's error message documents and every version of the
    library reads: ten characters, then the constructor's range check;
    [None] stands for ValueError.  From Python 3.11 on the library reads
    further forms as well (YYYYMMDD and the ISO week dates), all of
    them beginning with a four-digit year: the statements below that
    conclude a rejection are made for strings without one ([has_year]),
    which no version reads, and those about a date read assume this
    form. *)
Definition digit_val (c : ascii) : option N :=
  let n := N_of_ascii c in
  if (48 <=? n) && (n <=? 57) then Some (n - 48) else None.

Definition is_dash (c : ascii) : bool := Ascii.eqb c "-".

Definition fromisoformat (s : string) : option date :=
  match s with
  | String y1 (String y2 (String y3 (String y4 (String s1
      (String m1 (String m2 (String s2 (String d1 (String d2 ""))))))))) =>
      if is_dash s1 && is_dash s2 then
        a ← digit_val y1; b ← digit_val y2; c ← digit_val y3;
        e ← digit_val y4; f ← digit_val m1; g ← digit_val m2;
        h ← digit_val d1; i ← digit_val d2;
        let y := 1000 * a + 100 * b + 10 * c + e in
        let m := 10 * f + g in
        let d := 10 * h + i in
        if date_ok y m d then Some (mkdate y m d) else None
      else None
  | _ => None
  end.

Local Close Scope N_scope.

(** ** Strings: the [str] methods the bot uses *)

(** A [string] holds a Python [str] as the bytes of its UTF-8 encoding:
    the separators the bot looks for are ASCII, and the order of the
    encodings is the order of the code points.

    [s.strip()]: the white space of [str.isspace] is stripped from both
    ends.  In one byte that is 9-13 and 28-32; in two and three bytes
    U+0085, U+00A0, U+1680, U+2000 to U+200A, U+2028, U+2029, U+202F,
    U+205F and U+3000. *)
Definition is_space (c : ascii) : bool :=
  let n := nat_of_ascii c in
  ((9 <=? n) && (n <=? 13)) || ((28 <=? n) && (n <=? 32)).

Definition is_byte (n : N) (c : ascii) : bool := N.eqb (N_of_ascii c) n.

(** The number of bytes of the white-space character [s] begins with;
    0 when it begins with none. *)
Definition space_width (s : string) : nat :=
  match s with
  | String c s1 =>
      if is_space c then 1
      else
        match s1 with
        | String c2 s2 =>
            if is_byte 194 c && (is_byte 133 c2 || is_byte 160 c2) then 2
            else
              match s2 with
              | String c3 _ =>
                  let n3 := N_of_ascii c3 in
                  if is_byte 225 c && is_byte 154 c2 && is_byte 128 c3 then 3
                  else if is_byte 226 c && is_byte 128 c2
                          && ((N.leb 128 n3 && N.leb n3 138)
                              || is_byte 168 c3 || is_byte 169 c3
                              || is_byte 175 c3) then 3
                  else if is_byte 226 c && is_byte 129 c2 && is_byte 159 c3
                  then 3
                  else if is_byte 227 c && is_byte 128 c2 && is_byte 128 c3
                  then 3
                  else 0
              | EmptyString => 0
              end
        | EmptyString => 0
        end
  | EmptyString => 0
  end.

(** [skip] counts the bytes of a white-space character still to be
    dropped. *)
Fixpoint lstrip_from (skip : nat) (s : string) : string :=
  match s with
  | String c s' =>
      match skip with
      | S k => lstrip_from k s'
      | O =>
          match space_width s with
          | S k => lstrip_from k s'
          | O => s
          end
      end
  | EmptyString => EmptyString
  end.

Definition lstrip (s : string) : string := lstrip_from 0 s.

(** Nothing but white space. *)
Definition blank (s : string) : bool :=
  match lstrip s with
  | EmptyString => true
  | _ => false
  end.

Fixpoint rstrip (s : string) : string :=
  match s with
  | String c s' => if blank s then EmptyString else String c (rstrip s')
  | EmptyString => EmptyString
  end.

Definition strip (s : string) : string := rstrip (lstrip s).

(** [sub in s] *)
Fixpoint contains (sub s : string) : bool :=
  String.prefix sub s
  || match s with
     | String _ s' => contains sub s'
     | EmptyString => false
     end.

(** [s.split(sep)] for a non-empty [sep]: the pieces between the
    non-overlapping occurrences of [sep], scanning from the left.
    [skip] counts the characters of a separator still to be dropped. *)
Fixpoint split_from (sep : string) (skip : nat) (s : string) : list string :=
  match s with
  | EmptyString => [EmptyString]
  | String c s' =>
      match skip with
      | S k => split_from sep k s'
      | O =>
          if String.prefix sep s
          then EmptyString :: split_from sep (String.length sep - 1) s'
          else match split_from sep 0 s' with
               | piece :: rest => String c piece :: rest
               | [] => [String c EmptyString]
               end
      end
  end.

Definition split (sep s : string) : list string := split_from sep 0 s.

(** [sorted(...)] on strings: Python orders [str] by code point,
    lexicographically; its sort is a stable merge sort. *)
Definition str_le (a b : string) : Prop := String.leb a b = true.

#[global] Instance str_le_dec : RelDecision str_le.
Proof. intros a b. unfold str_le. apply _. Defined.

Definition sorted (l : list string) : list string := merge_sort str_le l.

(** ** Exceptions, state and the monad *)

Inductive exn :=
  | JSONDecodeError
  | ValueError
  | IndexError
  | KeyError
  | HTTPException.

Inductive result (A : Type) :=
  | Ok (a : A)
  | Raise (e : exn).
Arguments Ok {A} a.
Arguments Raise {A} e.

(** A playlist track as the Spotify client returns it, with the fields
    the bot reads: [t["id"]], [t["name"]], the names of [t["artists"]],
    the urls of [t["album"]["images"]] and [t["external_urls"]["spotify"]]. *)
Record Track := mkTrack
  { track_id : string;
    track_name : string;
    track_artists : list string;
    track_images : list string;
    track_url : string }.

#[global] Instance Track_eq_dec : EqDecision Track.
Proof. solve_decision. Defined.

(** The content of a state file that exists, as [json.load] finds it:
    text that is not JSON, on which it raises JSONDecodeError, or a
    document.  Each file is typed at the shape the bot writes to it.
    Two kinds of content have no place here and no statement covers
    them: bytes that do not decode as text, for which reading raises
    UnicodeDecodeError past every handler of the bot, and documents of
    another shape. *)
Inductive parsed (A : Type) :=
  | NotJson
  | Json (v : A).
Arguments NotJson {A}.
Arguments Json {A} v.

(** The state files next to the script; [None] is a file that does not
    exist.  [last_run.txt] is plain text. *)
Record Files := mkFiles
  { used_songs_json : option (parsed (list string));
    channel_config_json : option (parsed (list (string * Z)));
    last_run_txt : option string;
    scheduled_songs_json : option (parsed (gmap string string));
    allowed_roles_json : option (parsed (gmap string (list string))) }.

Inductive file_id :=
  | UsedSongs
  | ChannelConfig
  | LastRun
  | ScheduledSongs
  | AllowedRoles.

(** The embed built from the chosen track. *)
Record Embed := mkEmbed
  { embed_title : string;
    embed_url : string;
    embed_description : string;
    embed_thumbnail : string }.

(** What a run does to the outside, in order: whole-file writes,
    messages sent to channels, replies to a slash command. *)
Inductive event :=
  | EvWrite (f : file_id)
  | EvSend (channel : Z) (e : Embed)
  | EvReply (msg : string).

Record State := mkState { files : Files; trace : list event }.

(** State passing with exceptions; a raise keeps the state reached so
    far (files written before it stay written). *)
Definition M (A : Type) : Type := State -> State * result A.

#[global] Instance M_ret : MRet M := fun A a st => (st, Ok a).

Definition bind {A B} (m : M A) (f : A -> M B) : M B := fun st =>
  match m st with
  | (st', Ok a) => f a st'
  | (st', Raise e) => (st', Raise e)
  end.

#[global] Instance M_bind : MBind M := fun A B f m => bind m f.

Notation "'let*' x ':=' m 'in' k" := (bind m (fun x => k))
  (at level 10, x pattern, m at level 200, k at level 200).

Definition raise {A} (e : exn) : M A := fun st => (st, Raise e).

(** [try: m except e: handler] *)
Definition try_except {A} (m : M A) (e : exn) (handler : M A) : M A :=
  fun st =>
    match m st with
    | (st', Raise e') =>
        match e, e' with
        | JSONDecodeError, JSONDecodeError
        | ValueError, ValueError
        | IndexError, IndexError
        | KeyError, KeyError
        | HTTPException, HTTPException => handler st'
        | _, _ => (st', Raise e')
        end
    | r => r
    end.

Definition get_files : M Files := fun st => (st, Ok (files st)).

Definition put_files (f : Files) : M unit :=
  fun st => (mkState f (trace st), Ok tt).

Definition emit (e : event) : M unit :=
  fun st => (mkState (files st) (trace st ++ [e]), Ok tt).

Definition lift_option {A} (e : exn) (o : option A) : M A :=
  match o with
  | Some a => mret a
  | None => raise e
  end.

(** ** State files (song_of_day_test.py, STATE HELPERS) *)

(** A path constant: which file it names and how to read and replace
    that file's content. *)
Record path (A : Type) := mkPath
  { path_id : file_id;
    path_get : Files -> option (parsed A);
    path_set : option (parsed A) -> Files -> Files }.
Arguments path_id {A} p.
Arguments path_get {A} p f.
Arguments path_set {A} p c f.

Definition USED_SONGS_FILE : path (list string) :=
  mkPath _ UsedSongs used_songs_json
    (fun c f => mkFiles c (channel_config_json f) (last_run_txt f)
                  (scheduled_songs_json f) (allowed_roles_json f)).

Definition CHANNEL_CONFIG_FILE : path (list (string * Z)) :=
  mkPath _ ChannelConfig channel_config_json
    (fun c f => mkFiles (used_songs_json f) c (last_run_txt f)
                  (scheduled_songs_json f) (allowed_roles_json f)).

Definition SCHEDULED_SONGS_FILE : path (gmap string string) :=
  mkPath _ ScheduledSongs scheduled_songs_json
    (fun c f => mkFiles (used_songs_json f) (channel_config_json f)
                  (last_run_txt f) c (allowed_roles_json f)).

Definition ALLOWED_ROLES_FILE : path (gmap string (list string)) :=
  mkPath _ AllowedRoles allowed_roles_json
    (fun c f => mkFiles (used_songs_json f) (channel_config_json f)
                  (last_run_txt f) (scheduled_songs_json f) c).

Definition set_last_run_txt (c : option string) (f : Files) : Files :=
  mkFiles (used_songs_json f) (channel_config_json f) c
    (scheduled_songs_json f) (allowed_roles_json f).

Definition POST_HOUR : N := 11.
Definition POST_MINUTE : N := 30.

(** [os.path.exists(path)] *)
Definition path_exists {A} (p : path A) : M bool :=
  let* f := get_files in
  mret match path_get p f with
       | Some _ => true
       | None => false
       end.

(** [json.load(f)] on the opened file *)
Definition json_load {A} (p : path A) : M A :=
  let* f := get_files in
  match path_get p f with
  | Some (Json v) => mret v
  | _ => raise JSONDecodeError
  end.

Definition load_json {A} (p : path A) (default : A) : M A :=
  let* e := path_exists p in
  if e then
    try_except (json_load p) JSONDecodeError (mret default)
  else mret default.

Definition save_json {A} (p : path A) (data : A) : M unit :=
  let* f := get_files in
  put_files (path_set p (Some (Json data)) f);;
  emit (EvWrite (path_id p)).

Definition load_used_songs : M (gset string) :=
  let* l := load_json USED_SONGS_FILE [] in mret (list_to_set l).

Definition save_used_songs (data : gset string) : M unit :=
  save_json USED_SONGS_FILE (elements data).

Definition load_channel_config : M (list (string * Z)) :=
  load_json CHANNEL_CONFIG_FILE [].

Definition save_channel_config (data : list (string * Z)) : M unit :=
  save_json CHANNEL_CONFIG_FILE data.

Definition load_last_run : M (option date) :=
  let* f := get_files in
  match last_run_txt f with
  | Some text =>
      let* d := lift_option ValueError (fromisoformat (strip text)) in mret (Some d)
  | None => mret None
  end.

Definition save_last_run (d : date) : M unit :=
  let* f := get_files in
  put_files (set_last_run_txt (Some (isoformat d)) f);;
  emit (EvWrite LastRun).

Definition load_scheduled_songs : M (gmap string string) :=
  load_json SCHEDULED_SONGS_FILE ∅.

Definition save_scheduled_songs (data : gmap string string) : M unit :=
  save_json SCHEDULED_SONGS_FILE data.

Definition load_allowed_roles : M (gmap string (list string)) :=
  load_json ALLOWED_ROLES_FILE ∅.

Definition save_allowed_roles (data : gmap string (list string)) : M unit :=
  save_json ALLOWED_ROLES_FILE data.

(** ** The outside of one run *)

(** A channel the client resolved; [sendable] is false when
    [channel.send] raises (no permission, HTTP failure). *)
Record TextChannel := mkChannel { channel_id : Z; sendable : bool }.

(** What one run reads from outside: the playlist as [get_all_tracks()]
    returns it, the clock, the raw draw behind [random.choice], and the
    client's channel cache. *)
Record Env := mkEnv
  { tracks : list Track;
    now : datetime;
    draw : nat;
    get_channel : Z -> option TextChannel }.

(** The user and guild behind a slash command used in a guild: the
    administrator permission bit, [str(interaction.guild.id)] and the
    names of the member's roles. *)
Record Interaction := mkInteraction
  { administrator : bool;
    guild_key : string;
    user_roles : list string }.

(** [random.choice(seq)] is [seq[randbelow(len(seq))]]; IndexError on an
    empty sequence. *)
Definition random_choice {A} (env : Env) (seq : list A) : M A :=
  lift_option IndexError (seq !! (draw env mod length seq)).

(** ** Permission check *)

Definition is_allowed (interaction : Interaction) : M bool :=
  if administrator interaction then mret true
  else
    let* roles := load_allowed_roles in
    let allowed_roles := default [] (roles !! guild_key interaction) in
    mret (existsb (fun role => bool_decide (role ∈ allowed_roles))
            (user_roles interaction)).

(** ** Song selection *)

(** [{t["id"]: t for t in tracks}]: a later track replaces an earlier
    one with the same id. *)
Definition build_lookup (ts : list Track) : gmap string Track :=
  foldl (fun m t => <[track_id t := t]> m) ∅ ts.

(** The generator [d for d in scheduled.keys() if
    date.fromisoformat(d) <= today]: every key is parsed, an unparsable
    key raises ValueError. *)
Fixpoint due_keys (keys : list string) (today : date) : M (list string) :=
  match keys with
  | [] => mret []
  | d :: rest =>
      let* parsed_d := lift_option ValueError (fromisoformat d) in
      let* more := due_keys rest today in
      mret (if date_le parsed_d today then d :: more else more)
  end.

Definition pick_song (env : Env) : M (option Track) :=
  let tracks := tracks env in
  if bool_decide (tracks = []) then mret None
  else
    let* used := load_used_songs in
    let* scheduled := load_scheduled_songs in
    let today := dt_date (now env) in
    let lookup := build_lookup tracks in
    let* due := due_keys (map fst (map_to_list scheduled)) today in
    let valid_dates := sorted due in
    let* (song, used) :=
      match valid_dates with
      | chosen_date :: _ =>
          let* chosen_id := lift_option KeyError (scheduled !! chosen_date) in
          save_scheduled_songs (delete chosen_date scheduled);;
          mret (lookup !! chosen_id, used)
      | [] =>
          let unused :=
            filter (fun t => track_id t ∉ used) tracks in
          let '(used, unused) :=
            if bool_decide (unused = []) then (∅, tracks)
            else (used, unused) in
          let* song := random_choice env unused in
          mret (Some song, used)
      end in
    match song with
    | Some s =>
        let used := {[track_id s]} ∪ used in
        save_used_songs used;;
        mret (Some s)
    | None => mret None
    end.

(** ** Main action *)

Definition make_embed (song : Track) : M Embed :=
  let* thumbnail := lift_option IndexError (track_images song !! 0) in
  mret (mkEmbed (track_name song) (track_url song)
          ("**Artist:** " ++ String.concat ", " (track_artists song))
          thumbnail).

Definition channel_send (ch : TextChannel) (embed : Embed) : M unit :=
  if sendable ch then emit (EvSend (channel_id ch) embed)
  else raise HTTPException.

(** [for channel_id in channel_config.values(): ...] *)
Fixpoint dispatch (env : Env) (ids : list Z) (embed : Embed) : M unit :=
  match ids with
  | [] => mret tt
  | channel_id :: rest =>
      match get_channel env channel_id with
      | Some channel => channel_send channel embed
      | None => mret tt
      end;;
      dispatch env rest embed
  end.

Definition song_of_the_day (env : Env) : M bool :=
  let* channel_config := load_channel_config in
  if bool_decide (channel_config = []) then mret false
  else
    let* song := pick_song env in
    match song with
    | None => mret false
    | Some song =>
        let* embed := make_embed song in
        dispatch env (map snd channel_config) embed;;
        mret true
    end.

(** ** Scheduler: the body of the ten-second loop *)

Definition scheduler (env : Env) : M unit :=
  let now := now env in
  let today := dt_date now in
  let* last_run := load_last_run in
  if N.eqb (hour now) POST_HOUR
     && N.eqb (minute now) POST_MINUTE
     && N.ltb (second now) 10
     && negb (bool_decide (last_run = Some today))
  then
    song_of_the_day env;;
    save_last_run today
  else mret tt.

(** ** Slash commands

    Replies are kept as events; their texts are the bot's, in ASCII and
    without the channel mention. *)

(** [config[key] = value] on an insertion-ordered dict *)
Fixpoint dict_set {V} (key : string) (value : V) (d : list (string * V))
  : list (string * V) :=
  match d with
  | [] => [(key, value)]
  | (k, v) :: rest =>
      if bool_decide (k = key) then (k, value) :: rest
      else (k, v) :: dict_set key value rest
  end.

Definition setchannel (interaction : Interaction) (channel : Z) : M unit :=
  let* ok := is_allowed interaction in
  if negb ok then emit (EvReply "Permission denied.")
  else
    let* config := load_channel_config in
    save_channel_config (dict_set (guild_key interaction) channel config);;
    emit (EvReply "Song of the Day channel set.").

Definition schedule_song (interaction : Interaction)
    (date_str spotify_url : string) : M unit :=
  let* ok := is_allowed interaction in
  if negb ok then emit (EvReply "Permission denied.")
  else
    match fromisoformat date_str with
    | None => emit (EvReply "Invalid date format (YYYY-MM-DD).")
    | Some target =>
        if negb (contains "/track/" spotify_url)
        then emit (EvReply "Invalid Spotify track URL.")
        else
          let* after := lift_option IndexError (split "/track/" spotify_url !! 1) in
          let* chosen_id := lift_option IndexError (split "?" after !! 0) in
          let* scheduled := load_scheduled_songs in
          save_scheduled_songs (<[isoformat target := chosen_id]> scheduled);;
          emit (EvReply "Song scheduled.")
    end.

Definition unschedule_song (interaction : Interaction) (date_str : string)
  : M unit :=
  let* ok := is_allowed interaction in
  if negb ok then emit (EvReply "Permission denied.")
  else
    let* scheduled := load_scheduled_songs in
    if bool_decide (scheduled !! date_str = None)
    then emit (EvReply "Nothing scheduled for that date.")
    else
      save_scheduled_songs (delete date_str scheduled);;
      emit (EvReply "Schedule removed.").

Definition clear_schedule (interaction : Interaction) : M unit :=
  let* ok := is_allowed interaction in
  if negb ok then emit (EvReply "Permission denied.")
  else
    save_scheduled_songs ∅;;
    emit (EvReply "All scheduled songs cleared.").

Definition test_sotd (interaction : Interaction) (env : Env) : M unit :=
  let* ok := is_allowed interaction in
  if negb ok then emit (EvReply "Permission denied.")
  else
    emit (EvReply "Forcing Song of the Day");;
    song_of_the_day env;;
    mret tt.

(** ** The earlier bot (song_of_day_bot.py)

    No scheduled overrides and no role list; selection is inlined in
    [song_of_the_day], and the used-songs loader rewrites a corrupt
    file. *)
Module Bot.

Definition POST_HOUR : N := 10.
Definition POST_MINUTE : N := 0.

Definition load_used_songs : M (gset string) :=
  let* e := path_exists USED_SONGS_FILE in
  if negb e then mret ∅
  else
    let* data :=
      try_except
        (let* data := json_load USED_SONGS_FILE in mret (Some data))
        JSONDecodeError (mret None) in
    match data with
    | Some data => mret (list_to_set data)
    | None =>
        (* If file is empty or corrupted, reset it safely *)
        save_json USED_SONGS_FILE [];;
        mret ∅
    end.

Definition save_used_songs (song_ids : gset string) : M unit :=
  save_json USED_SONGS_FILE (elements song_ids).

Definition load_channel_config : M (list (string * Z)) :=
  let* e := path_exists CHANNEL_CONFIG_FILE in
  if e then json_load CHANNEL_CONFIG_FILE else mret [].

Definition save_channel_config (config : list (string * Z)) : M unit :=
  save_json CHANNEL_CONFIG_FILE config.

Definition song_of_the_day (env : Env) : M unit :=
  let* channel_config := load_channel_config in
  if bool_decide (channel_config = []) then mret tt
  else
    let* used_songs := load_used_songs in
    let tracks := tracks env in
    if bool_decide (tracks = []) then mret tt
    else
      let unused := filter (fun t => track_id t ∉ used_songs) tracks in
      let '(used_songs, unused) :=
        if bool_decide (unused = []) then (∅, tracks)
        else (used_songs, unused) in
      let* song := random_choice env unused in
      let used_songs := {[track_id song]} ∪ used_songs in
      save_used_songs used_songs;;
      let* embed := make_embed song in
      dispatch env (map snd channel_config) embed.

Definition scheduler (env : Env) : M unit :=
  let now := now env in
  let today := dt_date now in
  let* last_run := load_last_run in
  if N.eqb (hour now) POST_HOUR
     && N.eqb (minute now) POST_MINUTE
     && negb (bool_decide (last_run = Some today))
  then
    song_of_the_day env;;
    save_last_run today
  else mret tt.

(** The administrator check of both commands is a decorator run by
    the command framework before the body.  The scheduler's
    [asyncio.sleep(60)] after a firing only delays the next tick. *)
Definition setchannel (guild : string) (channel : Z) : M unit :=
  let* config := load_channel_config in
  save_channel_config (dict_set guild channel config);;
  emit (EvReply "Song of the Day channel set.").

Definition testsong (env : Env) : M unit :=
  emit (EvReply "Posting test Song of the Day...");;
  song_of_the_day env.

End Bot.

(** ** Running the loop *)

(** One poll tick after another, each with the clock and outside it
    meets; an exception out of the loop body stops the task. *)
Fixpoint run_ticks (tick : Env -> M unit) (envs : list Env) : M unit :=
  match envs with
  | [] => mret tt
  | env :: rest => tick env;; run_ticks tick rest
  end.

(** Consecutive selections, collecting what each returned. *)
Fixpoint pick_songs (envs : list Env) : M (list (option Track)) :=
  match envs with
  | [] => mret []
  | env :: rest =>
      let* song := pick_song env in
      let* more := pick_songs rest in
      mret (song :: more)
  end.

(** ** Reading the state files as the tables they hold *)

(** What the loaders return on a given set of files. *)
Definition used_set (f : Files) : gset string :=
  match used_songs_json f with
  | Some (Json l) => list_to_set l
  | _ => ∅
  end.

Definition override_map (f : Files) : gmap string string :=
  match scheduled_songs_json f with
  | Some (Json m) => m
  | _ => ∅
  end.

Definition destinations (f : Files) : list (string * Z) :=
  match channel_config_json f with
  | Some (Json d) => d
  | _ => []
  end.

(** A due override: a key whose date is on or before today. *)
Definition is_due (today : date) (key : string) : bool :=
  match fromisoformat key with
  | Some d => date_le d today
  | None => false
  end.

(** The override map's invariant: every key is an ISO date. *)
Definition iso_keys (m : gmap string string) : Prop :=
  Forall (fun k => is_Some (fromisoformat k)) (map fst (map_to_list m)).

(** The due overrides, as [pick_song] collects them before sorting. *)
Definition due_list (m : gmap string string) (today : date) : list string :=
  filter (fun k => is_due today k = true) (map fst (map_to_list m)).

(** The catalog's invariant: ids are unique within a snapshot. *)
Definition unique_ids (ts : list Track) : Prop :=
  NoDup (map track_id ts).

(** The tracks not yet used, the pool [random.choice] draws from on the
    random path (the whole catalog after a reset), and the used-set the
    pick is then added to (empty after a reset). *)
Definition unused_tracks (used : gset string) (ts : list Track) : list Track :=
  filter (fun t => track_id t ∉ used) ts.

Definition pool (used : gset string) (ts : list Track) : list Track :=
  if bool_decide (unused_tracks used ts = []) then ts
  else unused_tracks used ts.

Definition pool_used (used : gset string) (ts : list Track) : gset string :=
  if bool_decide (unused_tracks used ts = []) then ∅ else used.

(** The state after [save_scheduled_songs m] and after
    [save_used_songs used]. *)
Definition write_scheduled (m : gmap string string) (st : State) : State :=
  mkState (path_set SCHEDULED_SONGS_FILE (Some (Json m)) (files st))
          (trace st ++ [EvWrite ScheduledSongs]).

Definition write_used (used : gset string) (st : State) : State :=
  mkState (path_set USED_SONGS_FILE (Some (Json (elements used))) (files st))
          (trace st ++ [EvWrite UsedSongs]).

(** The same state with another content of [last_run.txt]. *)
Definition with_last_run (c : option string) (st : State) : State :=
  mkState (set_last_run_txt c (files st)) (trace st).

(** The trigger's window: the configured hour and minute, first ten
    seconds. *)
Definition in_window (t : datetime) : bool :=
  N.eqb (hour t) POST_HOUR && N.eqb (minute t) POST_MINUTE
  && N.ltb (second t) 10.

Definition is_write (e : event) : Prop :=
  match e with
  | EvWrite _ => True
  | _ => False
  end.

Definition is_send (e : event) : Prop :=
  match e with
  | EvSend _ _ => True
  | _ => False
  end.

(** ** Frames on [last_run.txt], the trigger's day *)

(** A computation that neither reads nor writes [last_run.txt]: run on
    files that differ only there, it does the same and leaves the same
    difference. *)
Definition ignores_last_run {A} (m : M A) : Prop :=
  forall c st,
    m (with_last_run c st) = (with_last_run c (fst (m st)), snd (m st)).

(** The four JSON paths do not touch [last_run.txt]. *)
Definition json_path {A} (p : path A) : Prop :=
  (forall c f, path_get p (set_last_run_txt c f) = path_get p f)
  /\ (forall c v f, path_set p v (set_last_run_txt c f)
                    = set_last_run_txt c (path_set p v f)).

(** The same outside at another time of the same day. *)
Definition at_time (env : Env) (h m s : N) : Env :=
  mkEnv (tracks env) (mkdatetime (dt_date (now env)) h m s) (draw env)
        (get_channel env).

(** The state after [save_last_run d]. *)
Definition write_last_run (d : date) (st : State) : State :=
  mkState (set_last_run_txt (Some (isoformat d)) (files st))
          (trace st ++ [EvWrite LastRun]).

(** ASCII text without white space. *)
Definition no_space (s : string) : Prop :=
  Forall (fun c => is_space c = false /\ (N_of_ascii c < 128)%N)
    (list_ascii_of_string s).

(** ** Cutting a string at the first occurrence of a separator *)

Fixpoint string_drop (n : nat) (s : string) : string :=
  match n, s with
  | S k, String _ s' => string_drop k s'
  | _, _ => s
  end.

(** The text of [s] before the first occurrence of [sep]; all of [s]
    when [sep] does not occur. *)
Fixpoint before (sep s : string) : string :=
  match s with
  | EmptyString => EmptyString
  | String c s' =>
      if String.prefix sep s then EmptyString else String c (before sep s')
  end.

(** The text of [s] after the first occurrence of [sep], if any. *)
Fixpoint after_first (sep s : string) : option string :=
  match s with
  | EmptyString => None
  | String _ s' =>
      if String.prefix sep s then Some (string_drop (String.length sep) s)
      else after_first sep s'
  end.

(** ** Sample data *)

Definition track_a : Track :=
  mkTrack "aaa" "Song A" ["Ann"; "Bob"] ["https://img/a"] "https://open/a".

Definition track_b : Track :=
  mkTrack "bbb" "Song B" ["Cy"] ["https://img/b"] "https://open/b".

Definition jan (d : N) (h m s : N) : datetime :=
  mkdatetime (mkdate 2024 1 d) h m s.

Definition open_channels (id : Z) : option TextChannel :=
  Some (mkChannel id true).

Definition closed_channels (id : Z) : option TextChannel :=
  Some (mkChannel id false).

Definition sample_env : Env :=
  mkEnv [track_a; track_b] (jan 5 11 30 3) 7 open_channels.

Definition no_files : Files := mkFiles None None None None None.

Definition sample_overrides : gmap string string :=
  <["2024-01-02" := "bbb"]> (<["2024-01-04" := "aaa"]> (<["2024-02-01" := "aaa"]> ∅)).

Definition dangling_overrides : gmap string string :=
  <["2024-01-02" := "gone"]> (<["2024-01-04" := "aaa"]> ∅).

Definition sample_files (used : list string) (m : gmap string string) : Files :=
  mkFiles (Some (Json used)) (Some (Json [("guild", 42%Z)])) None
          (Some (Json m)) None.

Definition admin : Interaction := mkInteraction true "guild" [].

(** ** Spotify track fetch *)

(** One page of [sp.playlist_items]: its items, each with a track or
    null, and the link to the next page or None. *)
Record Page := mkPage
  { page_items : list (option Track);
    page_next : option string }.

(** The [while True] loop of [get_all_tracks] over a client that
    answers an offset with a page; [fuel] bounds the number of requests
    and [None] is a loop that has not ended within it. *)
Fixpoint fetch_items (playlist_items : nat -> Page) (fuel : nat)
    (items : list (option Track)) (offset : nat)
  : option (list (option Track)) :=
  match fuel with
  | O => None
  | S fuel =>
      let page := playlist_items offset in
      let items := (items ++ page_items page)%list in
      match page_next page with
      | None => Some items
      | Some _ =>
          fetch_items playlist_items fuel items
            (offset + length (page_items page))
      end
  end.

(** [[i["track"] for i in items if i["track"]]] *)
Definition get_all_tracks (playlist_items : nat -> Page) (fuel : nat)
  : option (list Track) :=
  match fetch_items playlist_items fuel [] 0 with
  | Some items => Some (omap (fun i : option Track => i) items)
  | None => None
  end.

(** A client serving the playlist [all] in pages of [limit] items, with
    a next link while items remain. *)
Definition paged_client (all : list (option Track)) (limit : nat)
    (offset : nat) : Page :=
  mkPage (take limit (drop offset all))
         (if Nat.ltb (offset + limit) (length all)
          then Some "next" else None).

(** ** Viewing the schedule *)

(** [sorted] on the [(date, track id)] pairs of [dict.items()]: tuples
    compare by first component, then by second. *)
Definition item_le (a b : string * string) : Prop :=
  match String.compare (fst a) (fst b) with
  | Lt => True
  | Eq => str_le (snd a) (snd b)
  | Gt => False
  end.

#[global] Instance item_le_dec : RelDecision item_le.
Proof.
  intros a b. unfold item_le.
  destruct (String.compare (fst a) (fst b)); apply _.
Defined.

Definition sorted_items (l : list (string * string)) : list (string * string) :=
  merge_sort item_le l.

Definition schedule_line (item : string * string) : string :=
  fst item ++ " → https://open.spotify.com/track/" ++ snd item.

Definition newline : string := String "010" EmptyString.

(** The command has no permission check. *)
Definition view_schedule (interaction : Interaction) : M unit :=
  let* m := load_scheduled_songs in
  let scheduled := sorted_items (map_to_list m) in
  if bool_decide (scheduled = []) then emit (EvReply "No scheduled songs.")
  else
    let lines := map schedule_line scheduled in
    emit (EvReply (String.concat newline lines)).

(** ** Reading the other tables, for the statements *)

(** [d.get(key)] on an insertion-ordered dict *)
Fixpoint dict_get {V} (key : string) (d : list (string * V)) : option V :=
  match d with
  | [] => None
  | (k, v) :: rest => if bool_decide (k = key) then Some v else dict_get key rest
  end.

(** What [load_allowed_roles] returns on a given set of files. *)
Definition role_table (f : Files) : gmap string (list string) :=
  match allowed_roles_json f with
  | Some (Json m) => m
  | _ => ∅
  end.

(** Whether [is_allowed] lets the user through: administrator, or one
    of the user's roles is listed for the guild. *)
Definition permitted (interaction : Interaction) (f : Files) : bool :=
  administrator interaction
  || existsb
       (fun role =>
          bool_decide (role ∈ default [] (role_table f !! guild_key interaction)))
       (user_roles interaction).

(** The state after a command's single reply. *)
Definition replied (msg : string) (st : State) : State :=
  mkState (files st) (trace st ++ [EvReply msg]).

Definition member : Interaction := mkInteraction false "guild" ["dj"].

(** The id [schedule_song] takes out of a url: what follows the first
    "/track/", cut at the next "/track/" and then at the first "?". *)
Definition url_track_id (spotify_url : string) : string :=
  match after_first "/track/" spotify_url with
  | Some after => before "?" (before "/track/" after)
  | None => EmptyString
  end.

(** Clients for the examples: one that resolves only odd ids, one whose
    channel [bad] refuses messages. *)
Definition odd_channels (id : Z) : option TextChannel :=
  if Z.even id then None else Some (mkChannel id true).

Definition channels_but (bad : Z) (id : Z) : option TextChannel :=
  Some (mkChannel id (negb (Z.eqb id bad))).

(** Whether [s] begins with four decimal digits: the year that every
    form [date.fromisoformat] reads begins with. *)
Definition is_digit (c : ascii) : bool :=
  match digit_val c with
  | Some _ => true
  | None => false
  end.

Definition has_year (s : string) : bool :=
  match s with
  | String a (String b (String c (String d _))) =>
      is_digit a && is_digit b && is_digit c && is_digit d
  | _ => false
  end.

(** Whether character [c] occurs in [s]. *)
Fixpoint has_char (c : ascii) (s : string) : bool :=
  match s with
  | EmptyString => false
  | String x s' => Ascii.eqb x c || has_char c s'
  end.

(** * Properties *)

Example fromisoformat_leap : fromisoformat "2024-02-29" = Some (mkdate 2024 2 29).
Proof. reflexivity. Qed.

Example fromisoformat_noleap : fromisoformat "2023-02-29" = None.
Proof. reflexivity. Qed.

Example isoformat_pads : isoformat (mkdate 987 6 5) = "0987-06-05".
Proof. reflexivity. Qed.

(** ** Decimal digits and ISO dates *)

Ltac divlia := zify; Z.to_euclidean_division_equations; lia.

Lemma digit_val_Some c n :
  digit_val c = Some n -> (n < 10)%N /\ c = digit n.
Proof.
  unfold digit_val, digit. intros H.
  destruct ((48 <=? N_of_ascii c)%N && (N_of_ascii c <=? 57)%N) eqn:E;
    [|discriminate].
  injection H as <-.
  apply andb_true_iff in E as [E1 E2].
  apply N.leb_le in E1, E2.
  split; [lia|].
  replace (48 + (N_of_ascii c - 48) mod 10)%N with (N_of_ascii c).
  - symmetry. apply ascii_N_embedding.
  - rewrite N.mod_small by lia. lia.
Qed.

Lemma N_of_digit n : N_of_ascii (digit n) = (48 + n mod 10)%N.
Proof. unfold digit. apply N_ascii_embedding. divlia. Qed.

Lemma digit_val_digit n : digit_val (digit n) = Some (n mod 10)%N.
Proof.
  unfold digit_val. rewrite N_of_digit.
  replace ((48 <=? 48 + n mod 10)%N && (48 + n mod 10 <=? 57)%N) with true.
  - f_equal. divlia.
  - symmetry. apply andb_true_iff. split; apply N.leb_le; divlia.
Qed.

Lemma digit_mod n n' : (n mod 10 = n' mod 10)%N -> digit n = digit n'.
Proof. unfold digit. intros ->. reflexivity. Qed.

Lemma digit_compare a b :
  Ascii.compare (digit a) (digit b) = (a mod 10 ?= b mod 10)%N.
Proof.
  unfold Ascii.compare. rewrite !N_of_digit.
  destruct (N.compare_spec (a mod 10) (b mod 10)) as [E|E|E].
  - rewrite E. apply N.compare_refl.
  - apply N.compare_lt_iff. lia.
  - apply N.compare_gt_iff. lia.
Qed.

Lemma date_ok_bounds y m d :
  date_ok y m d = true ->
  (1 <= y <= 9999 /\ 1 <= m <= 12 /\ 1 <= d <= 31)%N.
Proof.
  unfold date_ok. rewrite !andb_true_iff, !N.leb_le.
  intros [[[[[? ?] ?] ?] ?] Hd].
  assert (days_in_month y m <= 31)%N.
  { unfold days_in_month. repeat case_match; lia. }
  lia.
Qed.

Lemma isoformat_unfold d :
  isoformat d =
  String (digit (year d / 1000)) (String (digit (year d / 100))
  (String (digit (year d / 10)) (String (digit (year d))
  (String "-" (String (digit (month d / 10)) (String (digit (month d))
  (String "-" (String (digit (day d / 10)) (String (digit (day d)) ""))))))))).
Proof. reflexivity. Qed.

Lemma fromisoformat_isoformat d :
  valid_date d -> fromisoformat (isoformat d) = Some d.
Proof.
  intros Hv. pose proof (date_ok_bounds _ _ _ Hv) as (Hy & Hm & Hd).
  rewrite isoformat_unfold. unfold fromisoformat.
  rewrite !digit_val_digit.
  cbn [is_dash Ascii.eqb Bool.eqb andb mbind option_bind].
  destruct d as [y m dd]; cbn [year month day] in *.
  replace (1000 * ((y / 1000) mod 10) + 100 * ((y / 100) mod 10)
           + 10 * ((y / 10) mod 10) + y mod 10)%N with y by divlia.
  replace (10 * ((m / 10) mod 10) + m mod 10)%N with m by divlia.
  replace (10 * ((dd / 10) mod 10) + dd mod 10)%N with dd by divlia.
  unfold valid_date in Hv. cbn [year month day] in Hv. rewrite Hv.
  reflexivity.
Qed.

Lemma is_dash_eq c : is_dash c = true -> c = "-"%char.
Proof. unfold is_dash. apply Ascii.eqb_eq. Qed.

Lemma fromisoformat_Some s d :
  fromisoformat s = Some d -> s = isoformat d /\ valid_date d.
Proof.
  unfold fromisoformat. intros H.
  do 10 (destruct s as [|? s]; [discriminate|]).
  destruct s; [|discriminate].
  destruct (is_dash a3 && is_dash a6) eqn:Hdash; [|discriminate].
  apply andb_true_iff in Hdash as [->%is_dash_eq ->%is_dash_eq].
  repeat match type of H with
  | context [digit_val ?c] =>
      let n := fresh "n" in let E := fresh "E" in
      destruct (digit_val c) as [n|] eqn:E; [|discriminate];
      apply digit_val_Some in E as [? ->]
  end.
  cbn [mbind option_bind] in H.
  match type of H with
  | context [date_ok ?y ?m ?dd] => destruct (date_ok y m dd) eqn:Hok
  end; [|discriminate].
  injection H as <-. split; [|exact Hok].
  rewrite isoformat_unfold. cbn [year month day].
  repeat match goal with
  | |- String (digit _) _ = String (digit _) _ =>
      apply f_equal2; [apply digit_mod; divlia|]
  | |- String ?c _ = String ?c _ => apply f_equal2; [reflexivity|]
  end.
  reflexivity.
Qed.

(** Zero-padded decimals of equal width compare as the numbers do. *)
(** Every string the parser reads begins with a four-digit year. *)
Lemma fromisoformat_has_year s d : fromisoformat s = Some d -> has_year s = true.
Proof.
  intros [-> _]%fromisoformat_Some. rewrite isoformat_unfold.
  unfold has_year, is_digit. by rewrite !digit_val_digit.
Qed.

Lemma fromisoformat_no_year s : has_year s = false -> fromisoformat s = None.
Proof.
  intros Hno. destruct (fromisoformat s) as [d|] eqn:E; [|done].
  apply fromisoformat_has_year in E. congruence.
Qed.

Lemma compare_app a b s t :
  String.length a = String.length b ->
  String.compare (a ++ s) (b ++ t) =
  match String.compare a b with
  | Eq => String.compare s t
  | r => r
  end.
Proof.
  revert b. induction a as [|c a IH]; intros [|c' b] Hlen; try discriminate.
  - reflexivity.
  - injection Hlen as Hlen.
    change (String c a ++ s) with (String c (a ++ s)).
    change (String c' b ++ t) with (String c' (b ++ t)).
    cbn [String.compare]. destruct (Ascii.compare c c'); auto.
Qed.

Lemma pad2_compare m n :
  (m < 100)%N -> (n < 100)%N ->
  String.compare (pad2 m) (pad2 n) = (m ?= n)%N.
Proof.
  intros Hm Hn. unfold pad2. cbn [String.compare]. rewrite !digit_compare.
  destruct (N.compare_spec ((m / 10) mod 10) ((n / 10) mod 10));
    [destruct (N.compare_spec (m mod 10) (n mod 10))|..];
    symmetry;
    first [apply N.compare_eq_iff | apply N.compare_lt_iff
          | apply N.compare_gt_iff]; divlia.
Qed.

Lemma pad4_split n : pad4 n = pad2 (n / 100) ++ pad2 (n mod 100).
Proof.
  unfold pad4, pad2.
  change (String ?c (String ?c' "") ++ ?s) with (String c (String c' s)).
  repeat (apply f_equal2; [apply digit_mod; divlia|]). reflexivity.
Qed.

Lemma pad4_compare m n :
  (m < 10000)%N -> (n < 10000)%N ->
  String.compare (pad4 m) (pad4 n) = (m ?= n)%N.
Proof.
  intros Hm Hn. rewrite !pad4_split.
  rewrite compare_app, !pad2_compare by (reflexivity || divlia).
  destruct (N.compare_spec (m / 100) (n / 100));
    [destruct (N.compare_spec (m mod 100) (n mod 100))|..];
    symmetry;
    first [apply N.compare_eq_iff | apply N.compare_lt_iff
          | apply N.compare_gt_iff]; divlia.
Qed.

Lemma isoformat_compare a b :
  valid_date a -> valid_date b ->
  String.compare (isoformat a) (isoformat b) =
  match (year a ?= year b)%N with
  | Eq => match (month a ?= month b)%N with
          | Eq => (day a ?= day b)%N
          | r => r
          end
  | r => r
  end.
Proof.
  intros (Hy & Hm & Hd)%date_ok_bounds (Hy' & Hm' & Hd')%date_ok_bounds.
  unfold isoformat.
  rewrite compare_app, pad4_compare by (reflexivity || lia).
  destruct (year a ?= year b)%N; try reflexivity.
  change ("-" ++ ?s) with (String "-" s). cbn [String.compare Ascii.compare].
  change (N_of_ascii "-" ?= N_of_ascii "-")%N with Eq.
  rewrite compare_app, pad2_compare by (reflexivity || lia).
  destruct (month a ?= month b)%N; try reflexivity.
  change ("-" ++ ?s) with (String "-" s). cbn [String.compare Ascii.compare].
  change (N_of_ascii "-" ?= N_of_ascii "-")%N with Eq.
  apply pad2_compare; lia.
Qed.

Lemma isoformat_leb a b :
  valid_date a -> valid_date b ->
  String.leb (isoformat a) (isoformat b) = date_le a b.
Proof.
  intros Ha Hb. unfold String.leb. rewrite isoformat_compare by done.
  unfold date_le.
  destruct (N.compare_spec (year a) (year b)) as [Ey|Ey|Ey].
  - rewrite Ey, N.ltb_irrefl, N.eqb_refl. cbn [orb andb].
    destruct (N.compare_spec (month a) (month b)) as [Em|Em|Em].
    + rewrite Em, N.ltb_irrefl, N.eqb_refl. cbn [orb andb].
      destruct (N.compare_spec (day a) (day b)); symmetry;
        first [apply N.leb_le | apply N.leb_gt]; lia.
    + apply N.ltb_lt in Em. rewrite Em. reflexivity.
    + assert ((month a <? month b) = false)%N as -> by (apply N.ltb_ge; lia).
      assert ((month a =? month b) = false)%N as -> by (apply N.eqb_neq; lia).
      reflexivity.
  - apply N.ltb_lt in Ey. rewrite Ey. reflexivity.
  - assert ((year a <? year b) = false)%N as -> by (apply N.ltb_ge; lia).
    assert ((year a =? year b) = false)%N as -> by (apply N.eqb_neq; lia).
    reflexivity.
Qed.

(** Keys that parse are ordered as their dates. *)
Lemma parsed_keys_leb k1 k2 d1 d2 :
  fromisoformat k1 = Some d1 -> fromisoformat k2 = Some d2 ->
  String.leb k1 k2 = date_le d1 d2.
Proof.
  intros [-> ?]%fromisoformat_Some [-> ?]%fromisoformat_Some.
  by apply isoformat_leb.
Qed.

(** ** The order behind [sorted] *)

#[global] Instance str_le_total : Total str_le.
Proof. intros a b. apply String.leb_total. Qed.

#[global] Instance str_le_trans : Transitive str_le.
Proof.
  unfold str_le, String.leb.
  intros a. induction a as [|x a IH]; intros [|y b] [|z c];
    cbn [String.compare]; try done.
  unfold Ascii.compare.
  destruct (N.compare_spec (N_of_ascii x) (N_of_ascii y)),
           (N.compare_spec (N_of_ascii y) (N_of_ascii z)),
           (N.compare_spec (N_of_ascii x) (N_of_ascii z));
    try done; try lia.
  apply IH.
Qed.

Lemma str_le_antisym a b : str_le a b -> str_le b a -> a = b.
Proof. apply String.leb_antisym. Qed.

(** The first element of [sorted l] is the least element of [l]. *)
Lemma sorted_head_least (l : list string) k :
  k ∈ l -> (forall x, x ∈ l -> str_le k x) ->
  exists rest, sorted l = k :: rest.
Proof.
  intros Hk Hmin. unfold sorted.
  pose proof (StronglySorted_merge_sort str_le l) as Hs.
  pose proof (merge_sort_Permutation str_le l) as Hp.
  destruct (merge_sort str_le l) as [|h rest].
  - rewrite <- Hp in Hk. by apply elem_of_nil in Hk.
  - exists rest. f_equal. apply str_le_antisym.
    + apply StronglySorted_inv in Hs as [_ Hall].
      rewrite <- Hp in Hk. apply elem_of_cons in Hk as [->|Hin].
      * destruct (str_le_total h h); done.
      * rewrite Forall_forall in Hall. by apply Hall.
    + apply Hmin. rewrite <- Hp. left.
Qed.

Lemma sorted_nil_inv l : sorted l = [] -> l = [].
Proof.
  unfold sorted. intros H.
  pose proof (merge_sort_Permutation str_le l) as Hp.
  rewrite H in Hp. by apply Permutation_nil_l in Hp.
Qed.

(** ** Running the monad *)

Lemma bind_ok {A B} (m : M A) (f : A -> M B) st st' a :
  m st = (st', Ok a) -> bind m f st = f a st'.
Proof. unfold bind. by intros ->. Qed.

Lemma bind_raise {A B} (m : M A) (f : A -> M B) st st' e :
  m st = (st', Raise e) -> bind m f st = (st', Raise e).
Proof. unfold bind. by intros ->. Qed.

Lemma seq_ok {A B} (m : M A) (k : M B) st st' a :
  m st = (st', Ok a) -> (m ;; k) st = k st'.
Proof. apply (bind_ok m (fun _ => k)). Qed.

Lemma seq_raise {A B} (m : M A) (k : M B) st st' e :
  m st = (st', Raise e) -> (m ;; k) st = (st', Raise e).
Proof. apply (bind_raise m (fun _ => k)). Qed.

Lemma load_json_run {A} (p : path A) (default : A) st :
  load_json p default st =
  (st, Ok match path_get p (files st) with
          | Some (Json v) => v
          | _ => default
          end).
Proof.
  destruct (path_get p (files st)) as [[|v]|] eqn:E;
    cbv [load_json path_exists try_except json_load bind get_files
         mret M_ret raise];
    rewrite ?E; reflexivity.
Qed.

Lemma save_json_run {A} (p : path A) (data : A) st :
  save_json p data st =
  (mkState (path_set p (Some (Json data)) (files st))
           (trace st ++ [EvWrite (path_id p)]), Ok tt).
Proof. reflexivity. Qed.

Lemma load_used_songs_run st :
  load_used_songs st = (st, Ok (used_set (files st))).
Proof.
  unfold load_used_songs. erewrite bind_ok by apply load_json_run.
  unfold used_set. cbn. by destruct (used_songs_json (files st)) as [[|?]|].
Qed.

Lemma load_scheduled_songs_run st :
  load_scheduled_songs st = (st, Ok (override_map (files st))).
Proof. apply load_json_run. Qed.

Lemma load_channel_config_run st :
  load_channel_config st = (st, Ok (destinations (files st))).
Proof. apply load_json_run. Qed.

Lemma save_used_songs_run used st :
  save_used_songs used st =
  (mkState (path_set USED_SONGS_FILE (Some (Json (elements used))) (files st))
           (trace st ++ [EvWrite UsedSongs]), Ok tt).
Proof. reflexivity. Qed.

Lemma save_scheduled_songs_run m st :
  save_scheduled_songs m st =
  (mkState (path_set SCHEDULED_SONGS_FILE (Some (Json m)) (files st))
           (trace st ++ [EvWrite ScheduledSongs]), Ok tt).
Proof. reflexivity. Qed.

Lemma used_set_saved used f :
  used_set (path_set USED_SONGS_FILE (Some (Json (elements used))) f) = used.
Proof. unfold used_set. cbn. apply leibniz_equiv, list_to_set_elements. Qed.

(** ** Due keys *)

Lemma due_keys_run keys today st :
  Forall (fun k => is_Some (fromisoformat k)) keys ->
  due_keys keys today st = (st, Ok (filter (fun k => is_due today k = true) keys)).
Proof.
  induction 1 as [|k keys [d Hd] _ IH]; [reflexivity|].
  cbn [due_keys]. rewrite Hd. cbn [lift_option].
  erewrite bind_ok by reflexivity. erewrite bind_ok by apply IH.
  assert (is_due today k = date_le d today) as Hdue
    by (unfold is_due; by rewrite Hd).
  unfold mret, M_ret. rewrite filter_cons, Hdue.
  destruct (date_le d today); by case_decide.
Qed.

Lemma due_keys_raise keys today st :
  Exists (fun k => fromisoformat k = None) keys ->
  due_keys keys today st = (st, Raise ValueError).
Proof.
  induction keys as [|k keys IH]; intros Hex.
  - by apply Exists_nil in Hex.
  - cbn [due_keys]. destruct (fromisoformat k) as [d|] eqn:Hd; [|reflexivity].
    cbn [lift_option]. erewrite bind_ok by reflexivity.
    apply Exists_cons in Hex as [?|Hex]; [congruence|].
    specialize (IH Hex). by erewrite bind_raise.
Qed.

Lemma keys_elem_of (m : gmap string string) k :
  k ∈ map fst (map_to_list m) <-> is_Some (m !! k).
Proof.
  change (map fst (map_to_list m)) with (fst <$> map_to_list m).
  rewrite list_elem_of_fmap. split.
  - intros [[k' v] [-> Hin]]. apply elem_of_map_to_list in Hin. by exists v.
  - intros [v Hv]. exists (k, v). split; [done|]. by apply elem_of_map_to_list.
Qed.

Lemma due_list_elem_of m today k :
  k ∈ due_list m today <-> is_Some (m !! k) /\ is_due today k = true.
Proof. unfold due_list. rewrite list_elem_of_filter, keys_elem_of. tauto. Qed.

Lemma is_due_spec today k :
  is_due today k = true <->
  exists d, fromisoformat k = Some d /\ date_le d today = true.
Proof.
  unfold is_due. destruct (fromisoformat k) as [d|]; split.
  - intros H. by exists d.
  - by intros [d' [[= ->] H]].
  - done.
  - by intros [d' [? _]].
Qed.

Lemma sorted_head_inv l k rest :
  sorted l = k :: rest -> k ∈ l /\ forall x, x ∈ l -> str_le k x.
Proof.
  unfold sorted. intros H.
  pose proof (StronglySorted_merge_sort str_le l) as Hs.
  pose proof (merge_sort_Permutation str_le l) as Hp.
  rewrite H in Hs, Hp. split.
  - rewrite <- Hp. left.
  - intros x Hx. rewrite <- Hp in Hx.
    apply StronglySorted_inv in Hs as [_ Hall].
    apply elem_of_cons in Hx as [->|Hin].
    + destruct (str_le_total k k); done.
    + rewrite Forall_forall in Hall. by apply Hall.
Qed.

(** The head of the sorted due keys is the earliest due date. *)
Lemma earliest_due_head m today k d :
  is_Some (m !! k) -> fromisoformat k = Some d -> date_le d today = true ->
  (forall k' d', is_Some (m !! k') -> fromisoformat k' = Some d' ->
                 date_le d' today = true -> date_le d d' = true) ->
  exists rest, sorted (due_list m today) = k :: rest.
Proof.
  intros Hk Hd Hdue Hmin. apply sorted_head_least.
  - apply due_list_elem_of. split; [done|]. apply is_due_spec. eauto.
  - intros x [Hx [d' [Hd' Hdue']]%is_due_spec]%due_list_elem_of.
    unfold str_le. rewrite (parsed_keys_leb _ _ _ _ Hd Hd'). eauto.
Qed.

Lemma head_earliest_due m today k rest :
  sorted (due_list m today) = k :: rest ->
  exists d v, m !! k = Some v /\ fromisoformat k = Some d /\
    date_le d today = true /\
    forall k' d', is_Some (m !! k') -> fromisoformat k' = Some d' ->
                  date_le d' today = true -> date_le d d' = true.
Proof.
  intros [[[v Hv] [d [Hd Hdue]]%is_due_spec]%due_list_elem_of Hmin]%sorted_head_inv.
  exists d, v. repeat split; try done.
  intros k' d' Hk' Hd' Hdue'.
  rewrite <- (parsed_keys_leb _ _ _ _ Hd Hd'). apply Hmin.
  apply due_list_elem_of. split; [done|]. apply is_due_spec. eauto.
Qed.

(** ** [pick_song], path by path *)

Lemma pick_song_empty env st :
  tracks env = [] -> pick_song env st = (st, Ok None).
Proof. unfold pick_song. intros ->. reflexivity. Qed.

Ltac pick_song_prefix env st Hne Hiso :=
  unfold pick_song; rewrite (bool_decide_eq_false_2 _ Hne);
  erewrite bind_ok by apply load_used_songs_run;
  erewrite bind_ok by apply load_scheduled_songs_run;
  erewrite bind_ok by (apply due_keys_run, Hiso);
  fold (due_list (override_map (files st)) (dt_date (now env))).

Lemma pick_song_override env st k rest v :
  tracks env <> [] ->
  iso_keys (override_map (files st)) ->
  sorted (due_list (override_map (files st)) (dt_date (now env))) = k :: rest ->
  override_map (files st) !! k = Some v ->
  pick_song env st =
  let st1 := write_scheduled (delete k (override_map (files st))) st in
  match build_lookup (tracks env) !! v with
  | Some song =>
      (write_used ({[track_id song]} ∪ used_set (files st)) st1, Ok (Some song))
  | None => (st1, Ok None)
  end.
Proof.
  intros Hne Hiso Hhead Hv. pick_song_prefix env st Hne Hiso.
  rewrite Hhead, Hv. cbn [lift_option].
  erewrite bind_ok by (erewrite bind_ok by reflexivity;
                       erewrite seq_ok by apply save_scheduled_songs_run;
                       reflexivity).
  cbv zeta. destruct (build_lookup (tracks env) !! v) as [song|]; [|reflexivity].
  erewrite seq_ok by apply save_used_songs_run. reflexivity.
Qed.

Lemma pool_nonempty used ts : ts <> [] -> pool used ts <> [].
Proof. unfold pool. intros Hne. case_bool_decide; done. Qed.

Lemma pick_song_random env st :
  tracks env <> [] ->
  iso_keys (override_map (files st)) ->
  due_list (override_map (files st)) (dt_date (now env)) = [] ->
  exists song,
    pool (used_set (files st)) (tracks env)
      !! (draw env mod length (pool (used_set (files st)) (tracks env)))
    = Some song /\
    pick_song env st =
    (write_used ({[track_id song]}
                 ∪ pool_used (used_set (files st)) (tracks env)) st,
     Ok (Some song)).
Proof.
  intros Hne Hiso Hdue.
  pose proof (pool_nonempty (used_set (files st)) _ Hne) as Hpool.
  destruct (lookup_lt_is_Some_2 (pool (used_set (files st)) (tracks env))
              (draw env mod length (pool (used_set (files st)) (tracks env))))
    as [song Hsong].
  { apply Nat.mod_upper_bound. by destruct (pool _ _). }
  exists song. split; [done|].
  pick_song_prefix env st Hne Hiso. rewrite Hdue.
  change (sorted []) with (@nil string). cbv beta iota.
  revert Hsong. unfold pool, pool_used, unused_tracks.
  case_bool_decide; intros Hsong;
    (erewrite bind_ok by (unfold random_choice; rewrite Hsong; reflexivity));
    cbv beta iota; erewrite seq_ok by apply save_used_songs_run; reflexivity.
Qed.

(** ** The id lookup *)

Lemma build_lookup_acc ts (acc : gmap string Track) i t :
  foldl (fun m t => <[track_id t := t]> m) acc ts !! i = Some t ->
  (t ∈ ts /\ track_id t = i) \/ acc !! i = Some t.
Proof.
  revert acc. induction ts as [|x ts IH]; intros acc H; [by right|].
  cbn [foldl] in H. apply IH in H as [[Hin Hid]|H].
  - left. split; [by right|done].
  - apply lookup_insert_Some in H as [[<- <-]|[_ H]].
    + left. split; [by left|done].
    + by right.
Qed.

Lemma build_lookup_Some ts i t :
  build_lookup ts !! i = Some t -> t ∈ ts /\ track_id t = i.
Proof.
  intros H. apply build_lookup_acc in H as [H|H]; [done|].
  by rewrite lookup_empty in H.
Qed.

Lemma build_lookup_acc_is_Some ts (acc : gmap string Track) i :
  is_Some (acc !! i) \/ i ∈ map track_id ts ->
  is_Some (foldl (fun m t => <[track_id t := t]> m) acc ts !! i).
Proof.
  revert acc. induction ts as [|x ts IH]; intros acc H.
  - destruct H as [H|H]; [done|]. by apply elem_of_nil in H.
  - cbn [foldl]. apply IH. destruct H as [H|H].
    + left. destruct (decide (track_id x = i)) as [->|Hne].
      * rewrite lookup_insert_eq. eauto.
      * by rewrite lookup_insert_ne.
    + cbn [map] in H. apply elem_of_cons in H as [->|H].
      * left. rewrite lookup_insert_eq. eauto.
      * by right.
Qed.

Lemma build_lookup_is_Some ts i :
  i ∈ map track_id ts -> is_Some (build_lookup ts !! i).
Proof. intros H. apply build_lookup_acc_is_Some. by right. Qed.

Lemma build_lookup_None ts i :
  i ∉ map track_id ts -> build_lookup ts !! i = None.
Proof.
  intros Hni. destruct (build_lookup ts !! i) as [t|] eqn:E; [|done].
  apply build_lookup_Some in E as [Hin <-]. destruct Hni.
  change (map track_id ts) with (track_id <$> ts). by apply list_elem_of_fmap_2.
Qed.

Lemma unique_ids_inj ts a b :
  unique_ids ts -> a ∈ ts -> b ∈ ts -> track_id a = track_id b -> a = b.
Proof.
  unfold unique_ids. induction ts as [|x ts IH]; intros Hnd Ha Hb Hid.
  - by apply elem_of_nil in Ha.
  - cbn [map] in Hnd. apply NoDup_cons in Hnd as [Hx Hnd].
    assert (forall y, y ∈ ts -> track_id y ∈ map track_id ts) as Hmem.
    { intros y Hy. change (map track_id ts) with (track_id <$> ts).
      by apply list_elem_of_fmap_2. }
    apply elem_of_cons in Ha as [->|Ha], Hb as [->|Hb]; auto.
    + destruct Hx. rewrite Hid. by apply Hmem.
    + destruct Hx. rewrite <- Hid. by apply Hmem.
Qed.

(** ** Reading back what was written *)

Lemma override_map_write_scheduled m st :
  override_map (files (write_scheduled m st)) = m.
Proof. reflexivity. Qed.

Lemma used_set_write_used used st :
  used_set (files (write_used used st)) = used.
Proof. apply used_set_saved. Qed.

Lemma override_map_write_used used st :
  override_map (files (write_used used st)) = override_map (files st).
Proof. reflexivity. Qed.

Lemma used_set_write_scheduled m st :
  used_set (files (write_scheduled m st)) = used_set (files st).
Proof. reflexivity. Qed.

Lemma unused_tracks_nil used ts :
  (forall t, t ∈ ts -> track_id t ∈ used) -> unused_tracks used ts = [].
Proof.
  intros Hall. unfold unused_tracks.
  destruct (filter _ ts) as [|t rest] eqn:E; [done|].
  assert (t ∈ filter (fun t => track_id t ∉ used) ts) as Hin
    by (rewrite E; left).
  apply list_elem_of_filter in Hin as [Hnot Hin]. destruct Hnot. by apply Hall.
Qed.

Lemma sorted_nonempty l : l <> [] -> exists k rest, sorted l = k :: rest.
Proof.
  intros Hne. destruct (sorted l) as [|k rest] eqn:E; [|eauto].
  by apply sorted_nil_inv in E.
Qed.

(** * Selection *)

(** C7. Selection against an empty catalog returns no track and leaves
    the state exactly as it was: the used-songs and scheduled-songs files
    are untouched and nothing is written, whatever they hold; the whole
    pipeline [song_of_the_day] writes nothing either. *)
Theorem pick_song_empty_catalog_noop
    (time : datetime) (n : nat) (chans : Z -> option TextChannel)
    (st : State) :
  pick_song (mkEnv [] time n chans) st = (st, Ok None)
  /\ fst (song_of_the_day (mkEnv [] time n chans) st) = st.
Proof.
  split; [reflexivity|].
  unfold song_of_the_day.
  erewrite bind_ok by apply load_channel_config_run.
  case_bool_decide; [reflexivity|].
  erewrite bind_ok by reflexivity. reflexivity.
Qed.

(** C2. With a non-empty catalog and an override map keyed by ISO dates,
    when the earliest due entry [k] holds an id [v] that no catalog track
    carries, selection returns no track (no random pick), the override
    map loses exactly [k], and the used-songs file is not written. *)
Theorem pick_song_dangling_override (env : Env) (st : State) k d v :
  tracks env <> [] ->
  iso_keys (override_map (files st)) ->
  override_map (files st) !! k = Some v ->
  fromisoformat k = Some d ->
  date_le d (dt_date (now env)) = true ->
  (forall k' d', is_Some (override_map (files st) !! k') ->
                 fromisoformat k' = Some d' ->
                 date_le d' (dt_date (now env)) = true ->
                 date_le d d' = true) ->
  v ∉ map track_id (tracks env) ->
  exists st',
    pick_song env st = (st', Ok None)
    /\ override_map (files st') = delete k (override_map (files st))
    /\ used_songs_json (files st') = used_songs_json (files st)
    /\ trace st' = (trace st ++ [EvWrite ScheduledSongs])%list.
Proof.
  intros Hne Hiso Hv Hd Hdue Hmin Hdangling.
  destruct (earliest_due_head _ _ k d (mk_is_Some _ _ Hv) Hd Hdue Hmin)
    as [rest Hhead].
  rewrite (pick_song_override env st k rest v Hne Hiso Hhead Hv).
  cbv zeta. rewrite (build_lookup_None _ _ Hdangling).
  eexists. split; [reflexivity|]. done.
Qed.

(** C1, amended. With a non-empty catalog and an override map keyed by
    ISO dates of which at least one is due, selection consumes exactly
    the entry [k] with the earliest due date: the override map afterwards
    is the old one without [k].  If some catalog track carries the id
    stored under [k], a catalog track with that id is returned whatever
    the used-set holds (the track itself when ids are unique), and the
    id is added to the used-set. *)
Theorem pick_song_consumes_earliest_due (env : Env) (st : State) :
  tracks env <> [] ->
  iso_keys (override_map (files st)) ->
  due_list (override_map (files st)) (dt_date (now env)) <> [] ->
  exists k d v st' song,
    override_map (files st) !! k = Some v
    /\ fromisoformat k = Some d
    /\ date_le d (dt_date (now env)) = true
    /\ (forall k' d', is_Some (override_map (files st) !! k') ->
                      fromisoformat k' = Some d' ->
                      date_le d' (dt_date (now env)) = true ->
                      date_le d d' = true)
    /\ pick_song env st = (st', Ok song)
    /\ override_map (files st') = delete k (override_map (files st))
    /\ (forall t, t ∈ tracks env -> track_id t = v ->
          exists t', song = Some t' /\ t' ∈ tracks env /\ track_id t' = v
            /\ (unique_ids (tracks env) -> t' = t)
            /\ used_set (files st') = {[v]} ∪ used_set (files st)).
Proof.
  intros Hne Hiso Hdue.
  destruct (sorted_nonempty _ Hdue) as (k & rest & Hhead).
  destruct (head_earliest_due _ _ _ _ Hhead) as (d & v & Hv & Hd & Hle & Hmin).
  pose proof (pick_song_override env st k rest v Hne Hiso Hhead Hv) as Hrun.
  cbv zeta in Hrun.
  destruct (build_lookup (tracks env) !! v) as [t'|] eqn:Hlook.
  - eexists k, d, v, _, (Some t').
    split; [done|]. split; [done|]. split; [done|]. split; [done|].
    split; [exact Hrun|]. split; [reflexivity|].
    intros t Ht Hid. exists t'.
    apply build_lookup_Some in Hlook as [Hin' Hid'].
    repeat split; try done.
    + intros Huniq. apply (unique_ids_inj (tracks env)); congruence.
    + rewrite used_set_write_used. by rewrite Hid'.
  - eexists k, d, v, _, None.
    split; [done|]. split; [done|]. split; [done|]. split; [done|].
    split; [exact Hrun|]. split; [reflexivity|].
    intros t Ht Hid. exfalso.
    destruct (build_lookup_is_Some (tracks env) v) as [? Hsome]; [|congruence].
    rewrite <- Hid. change (map track_id (tracks env))
      with (track_id <$> tracks env). by apply list_elem_of_fmap_2.
Qed.

(** C3. With a non-empty catalog, no due override and every catalog
    track's id already in the used-set, selection still returns a track:
    the one the draw indexes in the full catalog; the used-set written
    back holds exactly that track's id. *)
Theorem pick_song_wraparound (env : Env) (st : State) :
  tracks env <> [] ->
  iso_keys (override_map (files st)) ->
  due_list (override_map (files st)) (dt_date (now env)) = [] ->
  (forall t, t ∈ tracks env -> track_id t ∈ used_set (files st)) ->
  exists song st',
    pick_song env st = (st', Ok (Some song))
    /\ tracks env !! (draw env mod length (tracks env)) = Some song
    /\ used_set (files st') = {[track_id song]}
    /\ override_map (files st') = override_map (files st).
Proof.
  intros Hne Hiso Hdue Hall.
  destruct (pick_song_random env st Hne Hiso Hdue) as (song & Hsong & Hrun).
  assert (unused_tracks (used_set (files st)) (tracks env) = []) as Hnone.
  { by apply unused_tracks_nil. }
  unfold pool_used in Hrun. unfold pool in Hsong.
  rewrite (bool_decide_eq_true_2 _ Hnone) in Hrun, Hsong.
  eexists song, _. split; [exact Hrun|]. split; [exact Hsong|].
  rewrite used_set_write_used. split; [apply (right_id_L ∅ (∪))|reflexivity].
Qed.
Lemma earliest_check (m : gmap string string) today d :
  forallb (fun k' => match fromisoformat k' with
                     | Some d' => implb (date_le d' today) (date_le d d')
                     | None => true
                     end) (map fst (map_to_list m)) = true ->
  forall k' d', is_Some (m !! k') -> fromisoformat k' = Some d' ->
                date_le d' today = true -> date_le d d' = true.
Proof.
  intros Hall k' d' Hk' Hd' Hdue.
  rewrite forallb_forall in Hall.
  specialize (Hall k'). rewrite Hd', Hdue in Hall. apply Hall.
  apply list_elem_of_In. by apply keys_elem_of.
Qed.

Lemma iso_keys_check (m : gmap string string) :
  forallb (fun k => match fromisoformat k with Some _ => true | None => false end)
    (map fst (map_to_list m)) = true ->
  iso_keys m.
Proof.
  intros Hall. rewrite forallb_forall in Hall.
  apply Forall_forall. intros k Hk%list_elem_of_In. specialize (Hall k Hk).
  by destruct (fromisoformat k).
Qed.

Lemma pick_song_dangling_override_witness :
  exists st',
    pick_song sample_env (mkState (sample_files [] dangling_overrides) []) =
      (st', Ok None)
    /\ override_map (files st') = delete "2024-01-02" dangling_overrides
    /\ used_songs_json (files st') = Some (Json [])
    /\ trace st' = [EvWrite ScheduledSongs].
Proof.
  apply (pick_song_dangling_override sample_env
           (mkState (sample_files [] dangling_overrides) [])
           "2024-01-02" (mkdate 2024 1 2) "gone").
  - discriminate.
  - apply iso_keys_check. vm_compute. reflexivity.
  - vm_compute. reflexivity.
  - reflexivity.
  - reflexivity.
  - apply earliest_check. vm_compute. reflexivity.
  - vm_compute. intros H. inversion H as [|? ? ? H']; subst.
    inversion H' as [|? ? ? H'']; subst. inversion H''.
Defined.

Lemma pick_song_consumes_earliest_due_counterexample :
  due_list (override_map (sample_files [] sample_overrides)) (mkdate 2024 1 5)
    = ["2024-01-02"; "2024-01-04"]
  /\ pick_song (mkEnv [] (jan 5 11 30 3) 7 open_channels)
       (mkState (sample_files [] sample_overrides) [])
     = (mkState (sample_files [] sample_overrides) [], Ok None)
  /\ override_map (sample_files [] sample_overrides) !! "2024-01-02"
     = Some "bbb".
Proof. vm_compute. repeat split; reflexivity. Qed.

Lemma pick_song_consumes_earliest_due_witness :
  exists k d v st' song,
    override_map (sample_files ["aaa"; "bbb"] sample_overrides) !! k = Some v
    /\ fromisoformat k = Some d
    /\ date_le d (mkdate 2024 1 5) = true
    /\ (forall k' d',
          is_Some (override_map (sample_files ["aaa"; "bbb"] sample_overrides)
                     !! k') ->
          fromisoformat k' = Some d' ->
          date_le d' (mkdate 2024 1 5) = true -> date_le d d' = true)
    /\ pick_song sample_env
         (mkState (sample_files ["aaa"; "bbb"] sample_overrides) [])
       = (st', Ok song)
    /\ override_map (files st') = delete k sample_overrides
    /\ (forall t, t ∈ [track_a; track_b] -> track_id t = v ->
          exists t', song = Some t' /\ t' ∈ [track_a; track_b]
            /\ track_id t' = v
            /\ (unique_ids [track_a; track_b] -> t' = t)
            /\ used_set (files st') = {[v]} ∪ list_to_set ["aaa"; "bbb"]).
Proof.
  apply (pick_song_consumes_earliest_due sample_env
           (mkState (sample_files ["aaa"; "bbb"] sample_overrides) [])).
  - discriminate.
  - apply iso_keys_check. vm_compute. reflexivity.
  - vm_compute. discriminate.
Defined.

Lemma pick_song_wraparound_witness :
  exists song st',
    pick_song sample_env (mkState (sample_files ["bbb"; "aaa"] ∅) []) =
      (st', Ok (Some song))
    /\ [track_a; track_b] !! (7 mod 2) = Some song
    /\ used_set (files st') = {[track_id song]}
    /\ override_map (files st') = ∅.
Proof.
  apply (pick_song_wraparound sample_env
           (mkState (sample_files ["bbb"; "aaa"] ∅) [])).
  - discriminate.
  - apply iso_keys_check. vm_compute. reflexivity.
  - vm_compute. reflexivity.
  - intros t Ht. cbn in Ht.
    apply elem_of_cons in Ht as [->|Ht]; [set_solver|].
    apply elem_of_cons in Ht as [->|Ht]; [set_solver|].
    by apply elem_of_nil in Ht.
Defined.

Example pick_song_override_priority :
  snd (pick_song sample_env
         (mkState (sample_files ["aaa"; "bbb"] sample_overrides) []))
  = Ok (Some track_b).
Proof. vm_compute. reflexivity. Qed.

(** ** Counting: with unique ids, a used-set smaller than the catalog
    leaves some track unused *)

Lemma unused_tracks_elem_of used ts t :
  t ∈ unused_tracks used ts <-> (track_id t ∉ used) /\ t ∈ ts.
Proof. unfold unused_tracks. by rewrite list_elem_of_filter. Qed.

Lemma unused_tracks_nonempty used ts :
  unique_ids ts -> size used < length ts -> unused_tracks used ts <> [].
Proof.
  intros Huniq Hsize Hnil.
  assert (list_to_set (map track_id ts) ⊆ used) as Hsub.
  { intros i Hi. apply elem_of_list_to_set in Hi.
    change (map track_id ts) with (track_id <$> ts) in Hi.
    apply list_elem_of_fmap in Hi as [t [-> Ht]].
    destruct (decide (track_id t ∈ used)) as [|Hnot]; [done|].
    assert (t ∈ unused_tracks used ts) as Hin
      by (by apply unused_tracks_elem_of).
    rewrite Hnil in Hin. by apply elem_of_nil in Hin. }
  apply subseteq_size in Hsub.
  rewrite size_list_to_set in Hsub by exact Huniq.
  rewrite length_map in Hsub. lia.
Qed.

Lemma pick_songs_distinct_from (ts : list Track) (envs : list Env) :
  unique_ids ts ->
  Forall (fun env => tracks env = ts) envs ->
  forall st,
    size (used_set (files st)) + length envs <= length ts ->
    iso_keys (override_map (files st)) ->
    Forall (fun env => due_list (override_map (files st))
                         (dt_date (now env)) = []) envs ->
    exists songs st',
      pick_songs envs st = (st', Ok (map Some songs))
      /\ length songs = length envs
      /\ NoDup (map track_id songs)
      /\ Forall (fun s => s ∈ ts /\ (track_id s ∉ used_set (files st))) songs
      /\ used_set (files st')
         = list_to_set (map track_id songs) ∪ used_set (files st).
Proof.
  intros Huniq Hts. induction Hts as [|env envs Henv _ IH];
    intros st Hsize Hiso Hdue.
  - exists [], st. repeat split; try done; [constructor|].
    cbn. by rewrite (left_id_L ∅ (∪)).
  - cbn [length] in Hsize. apply Forall_cons in Hdue as [Hdue1 Hdue].
    assert (tracks env <> []) as Hne.
    { rewrite Henv. destruct ts; [cbn in Hsize; lia|done]. }
    destruct (pick_song_random env st Hne Hiso Hdue1) as (song & Hsong & Hrun).
    assert (unused_tracks (used_set (files st)) (tracks env) <> []) as Hun.
    { rewrite Henv. apply unused_tracks_nonempty; [done|lia]. }
    unfold pool in Hsong. unfold pool_used in Hrun.
    rewrite (bool_decide_eq_false_2 _ Hun) in Hsong, Hrun.
    apply list_elem_of_lookup_2, unused_tracks_elem_of in Hsong
      as [Hfresh Hin].
    rewrite Henv in Hin.
    set (st1 := write_used ({[track_id song]} ∪ used_set (files st)) st) in *.
    assert (used_set (files st1) = {[track_id song]} ∪ used_set (files st))
      as Hused1 by apply used_set_write_used.
    destruct (IH st1) as (songs & st' & Hrest & Hlen & Hnd & Hall & Hused').
    { rewrite Hused1, size_union by set_solver. rewrite size_singleton. lia. }
    { exact Hiso. }
    { exact Hdue. }
    exists (song :: songs), st'. split; [|split; [|split; [|split]]].
    + cbn [pick_songs map]. erewrite bind_ok by exact Hrun.
      erewrite bind_ok by exact Hrest. reflexivity.
    + cbn. by rewrite Hlen.
    + cbn [map]. apply NoDup_cons. split; [|done].
      intros Hdup. change (map track_id songs) with (track_id <$> songs) in Hdup.
      apply list_elem_of_fmap in Hdup as [s [Hid Hs]].
      rewrite Forall_forall in Hall. destruct (Hall s Hs) as [_ Hnot].
      apply Hnot. rewrite Hused1, <- Hid.
      apply elem_of_union. left. by apply elem_of_singleton.
    + apply Forall_cons. split; [done|].
      eapply Forall_impl; [exact Hall|]. intros s [? Hnot]. split; [done|].
      rewrite Hused1 in Hnot. intros Hs. apply Hnot, elem_of_union. by right.
    + rewrite Hused', Hused1. cbn [map]. rewrite list_to_set_cons.
      by rewrite (assoc_L (∪)), (comm_L (∪) (list_to_set _)).
Qed.

(** C4, amended. For a catalog whose ids are pairwise distinct and N
    consecutive random-path selections made against it (no override due
    at any of them) from an empty used-set, if N is at most the catalog
    size then all N return a catalog track and the N ids are pairwise
    distinct; the used-set ends up holding exactly those ids.  Without
    distinct ids the guarantee is lost: see the two-item playlist
    below. *)
Theorem pick_songs_no_repeat (ts : list Track) (envs : list Env) (st : State) :
  unique_ids ts ->
  Forall (fun env => tracks env = ts) envs ->
  length envs <= length ts ->
  used_set (files st) = ∅ ->
  iso_keys (override_map (files st)) ->
  Forall (fun env => due_list (override_map (files st))
                       (dt_date (now env)) = []) envs ->
  exists songs st',
    pick_songs envs st = (st', Ok (map Some songs))
    /\ length songs = length envs
    /\ NoDup (map track_id songs)
    /\ Forall (fun s => s ∈ ts) songs
    /\ used_set (files st') = list_to_set (map track_id songs).
Proof.
  intros Huniq Hts Hlen Hused Hiso Hdue.
  destruct (pick_songs_distinct_from ts envs Huniq Hts st)
    as (songs & st' & Hrun & Hl & Hnd & Hall & Hused'); try done.
  { rewrite Hused, size_empty. lia. }
  exists songs, st'. repeat split; try done.
  - eapply Forall_impl; [exact Hall|]. by intros s [? _].
  - rewrite Hused', Hused. apply (right_id_L ∅ (∪)).
Qed.

Lemma pick_songs_no_repeat_witness :
  exists songs st',
    pick_songs [sample_env; sample_env]
      (mkState (sample_files [] ∅) []) = (st', Ok (map Some songs))
    /\ length songs = 2
    /\ NoDup (map track_id songs)
    /\ Forall (fun s => s ∈ [track_a; track_b]) songs
    /\ used_set (files st') = list_to_set (map track_id songs).
Proof.
  apply (pick_songs_no_repeat [track_a; track_b] [sample_env; sample_env]
           (mkState (sample_files [] ∅) [])).
  - unfold unique_ids. apply (bool_decide_unpack _). vm_compute. exact I.
  - repeat constructor.
  - cbn. lia.
  - reflexivity.
  - apply iso_keys_check. vm_compute. reflexivity.
  - repeat constructor.
Defined.

(** A playlist can hold the same track twice; [get_all_tracks] then
    returns it twice, and of two selections from that catalog of size
    two, from an empty used-set and with nothing scheduled, the second
    repeats the first: after the first pick no track is unused, so the
    used-set is cleared. *)
Lemma pick_songs_no_repeat_counterexample :
  get_all_tracks (paged_client [Some track_a; Some track_a] 100) 1
  = Some [track_a; track_a]
  /\ used_set no_files = ∅
  /\ override_map no_files = ∅
  /\ pick_songs
       [mkEnv [track_a; track_a] (jan 5 11 30 3) 0 open_channels;
        mkEnv [track_a; track_a] (jan 6 11 30 3) 0 open_channels]
       (mkState no_files [])
     = (mkState (mkFiles (Some (Json ["aaa"])) None None None None)
          [EvWrite UsedSongs; EvWrite UsedSongs],
        Ok [Some track_a; Some track_a]).
Proof. vm_compute. repeat split; reflexivity. Qed.

(** ** What selection and dispatch do to the files and the trace *)

Lemma pick_song_raise_keys env st :
  tracks env <> [] -> ~ iso_keys (override_map (files st)) ->
  pick_song env st = (st, Raise ValueError).
Proof.
  intros Hne Hbad. unfold pick_song. rewrite (bool_decide_eq_false_2 _ Hne).
  erewrite bind_ok by apply load_used_songs_run.
  erewrite bind_ok by apply load_scheduled_songs_run.
  erewrite bind_raise; [reflexivity|].
  apply due_keys_raise. apply not_Forall_Exists in Hbad; [|apply _].
  eapply Exists_impl; [exact Hbad|]. intros k Hk. cbn in Hk.
  destruct (fromisoformat k); [|done]. destruct Hk. eauto.
Qed.

Lemma make_embed_state song st st' r :
  make_embed song st = (st', r) -> st' = st.
Proof.
  cbv [make_embed bind lift_option mret M_ret raise].
  destruct (track_images song !! 0); congruence.
Qed.

Lemma dispatch_sends env ids embed st st' r :
  dispatch env ids embed st = (st', r) ->
  files st' = files st
  /\ exists sends, trace st' = (trace st ++ sends)%list /\ Forall is_send sends.
Proof.
  revert st. induction ids as [|id ids IH]; intros st H.
  - injection H as <- _. split; [done|]. exists []. by rewrite app_nil_r.
  - cbn [dispatch] in H.
    destruct (get_channel env id) as [[cid [|]]|].
    + erewrite seq_ok in H by reflexivity.
      apply IH in H as [Hf (sends & Ht & Hs)]. split; [done|].
      exists (EvSend cid embed :: sends). split.
      * rewrite Ht. cbn. by rewrite <- app_assoc.
      * by constructor.
    + injection H as <- _. split; [done|]. exists []. by rewrite app_nil_r.
    + erewrite seq_ok in H by reflexivity. by apply IH.
Qed.

(** ** Every outcome of [pick_song] *)

Lemma pool_elem_of used ts song : song ∈ pool used ts -> song ∈ ts.
Proof.
  unfold pool. case_bool_decide; [done|].
  by intros [_ ?]%unused_tracks_elem_of.
Qed.

Lemma pick_song_outcome env st :
  let m := override_map (files st) in
  let used := used_set (files st) in
  let today := dt_date (now env) in
  (tracks env = [] /\ pick_song env st = (st, Ok None))
  \/ (tracks env <> [] /\ ~ iso_keys m
      /\ pick_song env st = (st, Raise ValueError))
  \/ (exists k v,
        tracks env <> [] /\ iso_keys m
        /\ m !! k = Some v /\ is_due today k = true
        /\ pick_song env st
           = match build_lookup (tracks env) !! v with
             | Some song =>
                 (write_used ({[track_id song]} ∪ used)
                    (write_scheduled (delete k m) st), Ok (Some song))
             | None => (write_scheduled (delete k m) st, Ok None)
             end)
  \/ (exists song,
        tracks env <> [] /\ iso_keys m /\ due_list m today = []
        /\ song ∈ pool used (tracks env)
        /\ pick_song env st
           = (write_used ({[track_id song]} ∪ pool_used used (tracks env)) st,
              Ok (Some song))).
Proof.
  cbv zeta.
  destruct (decide (tracks env = [])) as [Hnil|Hne].
  { left. split; [done|]. by apply pick_song_empty. }
  destruct (decide (iso_keys (override_map (files st)))) as [Hiso|Hbad].
  2: { right. left. repeat split; try done. by apply pick_song_raise_keys. }
  destruct (sorted (due_list (override_map (files st)) (dt_date (now env))))
    as [|k rest] eqn:Hsorted.
  - apply sorted_nil_inv in Hsorted.
    destruct (pick_song_random env st Hne Hiso Hsorted) as (song & Hsong & Hrun).
    do 3 right. exists song. repeat split; try done.
    by apply list_elem_of_lookup_2 in Hsong.
  - pose proof (sorted_head_inv _ _ _ Hsorted) as [Hin _].
    apply due_list_elem_of in Hin as [[v Hv] Hdue].
    right. right. left. exists k, v. repeat split; try done.
    by apply (pick_song_override env st k rest v).
Qed.

(** C8. In a firing that produces a track, every change selection makes
    to the used-set and to the override map is on disk before the first
    message is sent.  When the track came from a due override [k], the
    scheduled-songs file is written without [k] and then the used-songs
    file with the track's id added; on the random path the used-songs
    file is written with the id added (to the empty set after a
    wrap-around) and the override map is left as it was.  After these
    writes the trace holds sends only, and however dispatch ends,
    normally or by a raise in the middle, the files are the ones
    selection left. *)
Theorem selection_persisted_before_dispatch
    (env : Env) (st st1 st' : State) (song : Track) (r : result bool) :
  destinations (files st) <> [] ->
  pick_song env st = (st1, Ok (Some song)) ->
  song_of_the_day env st = (st', r) ->
  exists writes sends,
    trace st1 = (trace st ++ writes)%list
    /\ Forall is_write writes
    /\ trace st' = (trace st1 ++ sends)%list
    /\ Forall is_send sends
    /\ files st' = files st1
    /\ track_id song ∈ used_set (files st')
    /\ ((exists k,
           override_map (files st) !! k = Some (track_id song)
           /\ is_due (dt_date (now env)) k = true
           /\ writes = [EvWrite ScheduledSongs; EvWrite UsedSongs]
           /\ override_map (files st') = delete k (override_map (files st))
           /\ used_set (files st') = {[track_id song]} ∪ used_set (files st))
        \/ (due_list (override_map (files st)) (dt_date (now env)) = []
            /\ writes = [EvWrite UsedSongs]
            /\ override_map (files st') = override_map (files st)
            /\ used_set (files st')
               = {[track_id song]}
                 ∪ pool_used (used_set (files st)) (tracks env))).
Proof.
  intros Hdest Hpick Hrun.
  assert (files st' = files st1
          /\ exists sends, trace st' = (trace st1 ++ sends)%list
                           /\ Forall is_send sends) as [Hfiles Hsends].
  { unfold song_of_the_day in Hrun.
    erewrite bind_ok in Hrun by apply load_channel_config_run.
    rewrite (bool_decide_eq_false_2 _ Hdest) in Hrun.
    erewrite bind_ok in Hrun by exact Hpick. cbv beta iota in Hrun.
    destruct (make_embed song st1) as [st2 [embed|e]] eqn:Hembed;
      pose proof (make_embed_state _ _ _ _ Hembed) as ->.
    - erewrite bind_ok in Hrun by exact Hembed.
      destruct (dispatch env (map snd (destinations (files st))) embed st1)
        as [st3 r3] eqn:Hdisp.
      apply dispatch_sends in Hdisp as Hd.
      assert (st' = st3) as ->; [|exact Hd].
      destruct r3; [erewrite seq_ok in Hrun by exact Hdisp
                   |erewrite seq_raise in Hrun by exact Hdisp];
        by injection Hrun.
    - erewrite bind_raise in Hrun by exact Hembed. injection Hrun as <- _.
      split; [done|]. exists []. by rewrite app_nil_r. }
  destruct Hsends as (sends & Hsends & Hall). rewrite Hfiles.
  destruct (pick_song_outcome env st)
    as [[_ H]|[(_ & _ & H)|[(k & v & _ & _ & Hv & Hdue & H)
                           |(s & _ & _ & Hnone & _ & H)]]];
    cbv zeta in H; rewrite H in Hpick; try discriminate.
  - destruct (build_lookup (tracks env) !! v) as [s|] eqn:Hlook;
      [|discriminate].
    injection Hpick as <- <-. apply build_lookup_Some in Hlook as [_ <-].
    exists [EvWrite ScheduledSongs; EvWrite UsedSongs], sends.
    rewrite used_set_write_used.
    split; [cbn; by rewrite <- app_assoc|].
    split; [by repeat constructor|]. split; [done|]. split; [done|].
    split; [done|]. split; [apply elem_of_union; left; by apply elem_of_singleton|].
    left. exists k. by repeat split.
  - injection Hpick as <- <-.
    exists [EvWrite UsedSongs], sends. rewrite used_set_write_used.
    split; [done|]. split; [by repeat constructor|]. split; [done|].
    split; [done|]. split; [done|].
    split; [apply elem_of_union; left; by apply elem_of_singleton|].
    right. by repeat split.
Qed.

Lemma selection_persisted_before_dispatch_witness :
  exists writes sends,
    [EvWrite ScheduledSongs; EvWrite UsedSongs] = ([] ++ writes)%list
    /\ Forall is_write writes
    /\ [EvWrite ScheduledSongs; EvWrite UsedSongs]
       = ([EvWrite ScheduledSongs; EvWrite UsedSongs] ++ sends)%list
    /\ Forall is_send sends
    /\ sample_files ["bbb"] (delete "2024-01-02" sample_overrides)
       = sample_files ["bbb"] (delete "2024-01-02" sample_overrides)
    /\ "bbb" ∈ used_set
         (sample_files ["bbb"] (delete "2024-01-02" sample_overrides))
    /\ ((exists k,
           override_map (sample_files [] sample_overrides) !! k = Some "bbb"
           /\ is_due (mkdate 2024 1 5) k = true
           /\ writes = [EvWrite ScheduledSongs; EvWrite UsedSongs]
           /\ override_map
                (sample_files ["bbb"] (delete "2024-01-02" sample_overrides))
              = delete k (override_map (sample_files [] sample_overrides))
           /\ used_set
                (sample_files ["bbb"] (delete "2024-01-02" sample_overrides))
              = {["bbb"]} ∪ used_set (sample_files [] sample_overrides))
        \/ (due_list (override_map (sample_files [] sample_overrides))
              (mkdate 2024 1 5) = []
            /\ writes = [EvWrite UsedSongs]
            /\ override_map
                 (sample_files ["bbb"] (delete "2024-01-02" sample_overrides))
               = override_map (sample_files [] sample_overrides)
            /\ used_set
                 (sample_files ["bbb"] (delete "2024-01-02" sample_overrides))
               = {["bbb"]}
                 ∪ pool_used (used_set (sample_files [] sample_overrides))
                     [track_a; track_b])).
Proof.
  apply (selection_persisted_before_dispatch
           (mkEnv [track_a; track_b] (jan 5 11 30 3) 7 closed_channels)
           (mkState (sample_files [] sample_overrides) [])
           (mkState (sample_files ["bbb"]
                       (delete "2024-01-02" sample_overrides))
              [EvWrite ScheduledSongs; EvWrite UsedSongs])
           (mkState (sample_files ["bbb"]
                       (delete "2024-01-02" sample_overrides))
              [EvWrite ScheduledSongs; EvWrite UsedSongs])
           track_b (Raise HTTPException)).
  - discriminate.
  - vm_compute. reflexivity.
  - vm_compute. reflexivity.
Defined.

(** ** Computations that leave [last_run.txt] alone *)

Lemma ilr_ret {A} (a : A) : ignores_last_run (mret a).
Proof. by intros c st. Qed.

Lemma ilr_raise {A} e : ignores_last_run (@raise A e).
Proof. by intros c st. Qed.

Lemma ilr_lift_option {A} e (o : option A) : ignores_last_run (lift_option e o).
Proof. destruct o; [apply ilr_ret|apply ilr_raise]. Qed.

Lemma ilr_bind {A B} (m : M A) (f : A -> M B) :
  ignores_last_run m -> (forall a, ignores_last_run (f a)) ->
  ignores_last_run (bind m f).
Proof.
  intros Hm Hf c st. unfold bind. rewrite Hm.
  destruct (m st) as [st' [a|e]]; cbn [fst snd]; [apply Hf|done].
Qed.

Lemma ilr_seq {A B} (m : M A) (k : M B) :
  ignores_last_run m -> ignores_last_run k -> ignores_last_run (m ;; k).
Proof. intros Hm Hk. by apply (ilr_bind m (fun _ => k)). Qed.

Lemma ilr_try_except {A} (m : M A) e (h : M A) :
  ignores_last_run m -> ignores_last_run h ->
  ignores_last_run (try_except m e h).
Proof.
  intros Hm Hh c st. unfold try_except. rewrite Hm.
  destruct (m st) as [st' [a|e']]; cbn [fst snd]; [done|].
  destruct e, e'; first [apply Hh | done].
Qed.

Lemma ilr_emit e : ignores_last_run (emit e).
Proof. by intros c st. Qed.

Lemma json_path_used : json_path USED_SONGS_FILE.
Proof. by split. Qed.

Lemma json_path_channels : json_path CHANNEL_CONFIG_FILE.
Proof. by split. Qed.

Lemma json_path_scheduled : json_path SCHEDULED_SONGS_FILE.
Proof. by split. Qed.

Lemma json_path_roles : json_path ALLOWED_ROLES_FILE.
Proof. by split. Qed.

Lemma ilr_load_json {A} (p : path A) (default : A) :
  json_path p -> ignores_last_run (load_json p default).
Proof.
  intros [Hget _] c st. rewrite !load_json_run. cbn [fst snd files with_last_run].
  by rewrite Hget.
Qed.

Lemma ilr_save_json {A} (p : path A) (data : A) :
  json_path p -> ignores_last_run (save_json p data).
Proof.
  intros [_ Hset] c st. rewrite !save_json_run.
  cbn [fst snd files trace with_last_run]. by rewrite Hset.
Qed.

Lemma ilr_due_keys keys today : ignores_last_run (due_keys keys today).
Proof.
  induction keys as [|k keys IH]; [apply ilr_ret|].
  cbn [due_keys]. apply ilr_bind; [apply ilr_lift_option|intros d].
  apply ilr_bind; [exact IH|intros more]. apply ilr_ret.
Qed.

Ltac ilr_step :=
  first
    [ apply ilr_ret | apply ilr_raise | apply ilr_emit | apply ilr_lift_option
    | apply ilr_due_keys
    | apply ilr_load_json; first [ apply json_path_used
                                 | apply json_path_channels
                                 | apply json_path_scheduled
                                 | apply json_path_roles ]
    | apply ilr_save_json; first [ apply json_path_used
                                 | apply json_path_channels
                                 | apply json_path_scheduled
                                 | apply json_path_roles ]
    | apply ilr_bind; [|intros ?]
    | apply ilr_seq
    | apply ilr_try_except
    | case_bool_decide
    | case_match ].

Lemma ilr_pick_song env : ignores_last_run (pick_song env).
Proof.
  unfold pick_song, load_used_songs, load_scheduled_songs, save_used_songs,
    save_scheduled_songs, random_choice.
  repeat ilr_step.
Qed.

Lemma ilr_dispatch env ids embed : ignores_last_run (dispatch env ids embed).
Proof.
  induction ids as [|id ids IH]; [apply ilr_ret|].
  cbn [dispatch]. apply ilr_seq; [|exact IH].
  unfold channel_send. repeat ilr_step.
Qed.

Lemma ilr_song_of_the_day env : ignores_last_run (song_of_the_day env).
Proof.
  unfold song_of_the_day, load_channel_config, make_embed.
  repeat first [apply ilr_pick_song | apply ilr_dispatch | ilr_step].
Qed.

Lemma ilr_is_allowed interaction : ignores_last_run (is_allowed interaction).
Proof. unfold is_allowed, load_allowed_roles. repeat ilr_step. Qed.

Lemma ilr_test_sotd interaction env : ignores_last_run (test_sotd interaction env).
Proof.
  unfold test_sotd.
  repeat first [apply ilr_is_allowed | apply ilr_song_of_the_day | ilr_step].
Qed.

Lemma with_last_run_same st : with_last_run (last_run_txt (files st)) st = st.
Proof. by destruct st as [[] ?]. Qed.

Lemma ignores_last_run_unwritten {A} (m : M A) st :
  ignores_last_run m ->
  last_run_txt (files (fst (m st))) = last_run_txt (files st).
Proof.
  intros Hm. specialize (Hm (last_run_txt (files st)) st).
  rewrite with_last_run_same in Hm.
  destruct (m st) as [st' r]. cbn [fst snd] in *.
  injection Hm as Hm. rewrite Hm at 1. reflexivity.
Qed.
Lemma load_last_run_run st :
  load_last_run st =
  (st, match last_run_txt (files st) with
       | Some text =>
           match fromisoformat (strip text) with
           | Some d => Ok (Some d)
           | None => Raise ValueError
           end
       | None => Ok None
       end).
Proof.
  cbv [load_last_run bind get_files lift_option mret M_ret raise].
  destruct (last_run_txt (files st)) as [text|]; [|done].
  by destruct (fromisoformat (strip text)).
Qed.

Lemma pick_song_at_time env h m s :
  pick_song (at_time env h m s) = pick_song env.
Proof. reflexivity. Qed.

Lemma dispatch_at_time env h m s ids embed :
  dispatch (at_time env h m s) ids embed = dispatch env ids embed.
Proof.
  induction ids as [|id ids IH]; [done|]. cbn [dispatch]. by rewrite IH.
Qed.

Lemma song_of_the_day_at_time env h m s st :
  song_of_the_day (at_time env h m s) st = song_of_the_day env st.
Proof.
  unfold song_of_the_day. rewrite pick_song_at_time.
  unfold mbind, M_bind, bind.
  destruct (load_channel_config st) as [st0 [cfg|e]]; [|done].
  case_bool_decide; [done|].
  destruct (pick_song env st0) as [st1 [[song|]|e]]; try done.
  destruct (make_embed song st1) as [st2 [embed|e]]; [|done].
  by rewrite dispatch_at_time.
Qed.


(** ** The last-fired date on disk *)

Lemma is_space_digit n : is_space (digit n) = false.
Proof.
  unfold is_space, nat_of_ascii. rewrite N_of_digit.
  apply orb_false_iff. split; apply andb_false_iff; right;
    apply Nat.leb_gt; divlia.
Qed.

Lemma is_byte_ascii n c :
  (N_of_ascii c < 128)%N -> (128 <= n)%N -> is_byte n c = false.
Proof. intros Hc Hn. unfold is_byte. apply N.eqb_neq. lia. Qed.

Lemma space_width_ascii c s :
  is_space c = false -> (N_of_ascii c < 128)%N -> space_width (String c s) = 0.
Proof.
  intros Hsp Hc. cbn [space_width]. rewrite Hsp.
  destruct s as [|c2 [|c3 s]]; [done| |];
    rewrite !(is_byte_ascii _ c Hc) by lia; reflexivity.
Qed.

Lemma lstrip_no_space s : no_space s -> lstrip s = s.
Proof.
  unfold no_space, lstrip. destruct s as [|c s]; [done|].
  cbn [list_ascii_of_string lstrip_from]. intros [[Hsp Hc] _]%Forall_cons.
  by rewrite space_width_ascii.
Qed.

Lemma blank_no_space c s : no_space (String c s) -> blank (String c s) = false.
Proof. intros H. unfold blank. by rewrite lstrip_no_space. Qed.

Lemma rstrip_no_space s : no_space s -> rstrip s = s.
Proof.
  induction s as [|c s IH]; [done|]. intros H.
  cbn [rstrip]. rewrite (blank_no_space _ _ H).
  unfold no_space in H. cbn [list_ascii_of_string] in H.
  apply Forall_cons in H as [_ Hs]. by rewrite (IH Hs).
Qed.

Lemma isoformat_no_space d : no_space (isoformat d).
Proof.
  unfold no_space. rewrite isoformat_unfold. cbn [list_ascii_of_string].
  repeat (apply Forall_cons; split;
          [first [split; [apply is_space_digit|rewrite N_of_digit; divlia]
                 | split; [reflexivity|vm_compute; reflexivity]]|]).
  constructor.
Qed.

Lemma strip_isoformat d : strip (isoformat d) = isoformat d.
Proof.
  unfold strip. rewrite lstrip_no_space by apply isoformat_no_space.
  apply rstrip_no_space, isoformat_no_space.
Qed.

Lemma load_last_run_written d st :
  valid_date d ->
  load_last_run (write_last_run d st) = (write_last_run d st, Ok (Some d)).
Proof.
  intros Hv. rewrite load_last_run_run. cbn [write_last_run files last_run_txt set_last_run_txt].
  by rewrite strip_isoformat, fromisoformat_isoformat.
Qed.

Lemma save_last_run_run d st :
  save_last_run d st = (write_last_run d st, Ok tt).
Proof. reflexivity. Qed.

(** ** The scheduler *)

Lemma scheduler_skips env st :
  load_last_run st = (st, Ok (Some (dt_date (now env)))) ->
  scheduler env st = (st, Ok tt).
Proof.
  intros Hlast. unfold scheduler. rewrite (bind_ok _ _ _ _ _ Hlast).
  rewrite bool_decide_eq_true_2 by done. by rewrite !andb_false_r.
Qed.

Lemma scheduler_outside_window env st last :
  load_last_run st = (st, Ok last) ->
  in_window (now env) = false ->
  scheduler env st = (st, Ok tt).
Proof.
  intros Hlast Hout. unfold scheduler. rewrite (bind_ok _ _ _ _ _ Hlast).
  unfold in_window in Hout. by rewrite Hout.
Qed.

Lemma scheduler_fires env st last :
  load_last_run st = (st, Ok last) ->
  last <> Some (dt_date (now env)) ->
  in_window (now env) = true ->
  scheduler env st
  = (song_of_the_day env;; save_last_run (dt_date (now env))) st.
Proof.
  intros Hlast Hne Hin. unfold scheduler. rewrite (bind_ok _ _ _ _ _ Hlast).
  unfold in_window in Hin. rewrite Hin.
  by rewrite bool_decide_eq_false_2 by done.
Qed.

Lemma run_ticks_skips envs today st :
  Forall (fun e => dt_date (now e) = today) envs ->
  load_last_run st = (st, Ok (Some today)) ->
  run_ticks scheduler envs st = (st, Ok tt).
Proof.
  intros Hall Hlast. induction Hall as [|env envs Henv _ IH]; [done|].
  cbn [run_ticks]. erewrite seq_ok; [exact IH|].
  apply scheduler_skips. by rewrite Henv.
Qed.

Lemma song_of_the_day_no_destinations env st :
  destinations (files st) = [] -> song_of_the_day env st = (st, Ok false).
Proof.
  intros Hnil. unfold song_of_the_day.
  erewrite bind_ok by apply load_channel_config_run.
  by rewrite bool_decide_eq_true_2.
Qed.

Lemma song_of_the_day_no_tracks env st :
  tracks env = [] -> song_of_the_day env st = (st, Ok false).
Proof.
  intros Hnil. unfold song_of_the_day.
  erewrite bind_ok by apply load_channel_config_run.
  case_bool_decide; [done|].
  by erewrite bind_ok by (by apply pick_song_empty).
Qed.

(** C5, amended. A tick whose persisted last-fired-date is today does
    nothing, at any time of day, and so do all later ticks of that day.
    A tick in the window whose last-fired-date is not today runs
    [song_of_the_day] once; when that run returns, with or without a
    track or a destination, today is written as last-fired-date and
    every later tick of the day does nothing; when that run raises, the
    tick raises with the last-fired-date unwritten.  With an empty
    catalog or no destination the run returns and today is recorded. *)
Theorem scheduler_once_per_day (env : Env) (later : list Env) (st : State) :
  valid_date (dt_date (now env)) ->
  Forall (fun e => dt_date (now e) = dt_date (now env)) later ->
  (load_last_run st = (st, Ok (Some (dt_date (now env)))) ->
   run_ticks scheduler (env :: later) st = (st, Ok tt))
  /\ (forall last,
        load_last_run st = (st, Ok last) ->
        last <> Some (dt_date (now env)) ->
        in_window (now env) = true ->
        match song_of_the_day env st with
        | (st1, Ok _) =>
            scheduler env st = (write_last_run (dt_date (now env)) st1, Ok tt)
            /\ run_ticks scheduler (env :: later) st
               = (write_last_run (dt_date (now env)) st1, Ok tt)
        | (st1, Raise e) =>
            scheduler env st = (st1, Raise e)
            /\ last_run_txt (files st1) = last_run_txt (files st)
        end)
  /\ (forall last,
        load_last_run st = (st, Ok last) ->
        last <> Some (dt_date (now env)) ->
        in_window (now env) = true ->
        tracks env = [] \/ destinations (files st) = [] ->
        scheduler env st = (write_last_run (dt_date (now env)) st, Ok tt)).
Proof.
  intros Hvalid Hlater. split; [|split].
  - intros Hlast. apply (run_ticks_skips _ (dt_date (now env))); [|done].
    by constructor.
  - intros last Hlast Hne Hin.
    pose proof (scheduler_fires env st last Hlast Hne Hin) as Hfire.
    pose proof (ignores_last_run_unwritten _ st (ilr_song_of_the_day env))
      as Hframe.
    destruct (song_of_the_day env st) as [st1 [b|e]] eqn:Hrun;
      cbn [fst] in Hframe.
    + erewrite seq_ok in Hfire by exact Hrun.
      rewrite save_last_run_run in Hfire. split; [exact Hfire|].
      cbn [run_ticks]. erewrite seq_ok by exact Hfire.
      apply (run_ticks_skips _ (dt_date (now env))); [done|].
      by apply load_last_run_written.
    + erewrite seq_raise in Hfire by exact Hrun. by split.
  - intros last Hlast Hne Hin Hnothing.
    rewrite (scheduler_fires env st last Hlast Hne Hin).
    erewrite seq_ok; [apply save_last_run_run|].
    destruct Hnothing as [Hnil|Hnil].
    + by apply song_of_the_day_no_tracks.
    + by apply song_of_the_day_no_destinations.
Qed.

Lemma scheduler_once_per_day_witness :
  scheduler (mkEnv [track_a; track_b] (jan 5 11 30 3) 7 open_channels)
    (mkState no_files [])
  = (write_last_run (mkdate 2024 1 5) (mkState no_files []), Ok tt)
  /\ run_ticks scheduler
       [mkEnv [track_a; track_b] (jan 5 11 30 3) 7 open_channels;
        mkEnv [track_a; track_b] (jan 5 11 30 3) 8 open_channels;
        mkEnv [track_a; track_b] (jan 5 11 30 9) 9 open_channels]
       (mkState no_files [])
     = (write_last_run (mkdate 2024 1 5) (mkState no_files []), Ok tt).
Proof.
  destruct (scheduler_once_per_day
              (mkEnv [track_a; track_b] (jan 5 11 30 3) 7 open_channels)
              [mkEnv [track_a; track_b] (jan 5 11 30 3) 8 open_channels;
               mkEnv [track_a; track_b] (jan 5 11 30 9) 9 open_channels]
              (mkState no_files []))
    as (_ & Hfire & _).
  - reflexivity.
  - repeat constructor.
  - specialize (Hfire None eq_refl ltac:(discriminate) eq_refl).
    exact Hfire.
Defined.

Lemma scheduler_once_per_day_counterexample :
  load_last_run (mkState (sample_files [] ∅) [])
  = (mkState (sample_files [] ∅) [], Ok None)
  /\ in_window (jan 5 11 30 3) = true
  /\ scheduler (mkEnv [track_a; track_b] (jan 5 11 30 3) 7 closed_channels)
       (mkState (sample_files [] ∅) [])
     = (mkState (sample_files ["bbb"] ∅) [EvWrite UsedSongs],
        Raise HTTPException)
  /\ last_run_txt (sample_files ["bbb"] ∅) = None.
Proof. vm_compute. repeat split; reflexivity. Qed.

(** ** Loading absent and corrupt files *)

Lemma load_last_run_corrupt text st :
  last_run_txt (files st) = Some text ->
  fromisoformat (strip text) = None ->
  load_last_run st = (st, Raise ValueError).
Proof. intros Htext Hbad. rewrite load_last_run_run. by rewrite Htext, Hbad. Qed.

(** C6, amended. Each of the four loaders returns the empty default of
    its shape when its file is absent.  When the file holds text that is
    not JSON (what [json.load] turns down with JSONDecodeError, the one
    error [load_json] handles), the three JSON loaders (used songs,
    channel config, scheduled songs) return the empty default without
    raising and without writing: the file stays as it is, and a second
    load right after returns the default again.  The last-fired-date
    loader has no recovery at all: when the stripped text of the file
    does not begin with a four-digit year (an empty or blank file, a
    word, a date written day first), ValueError reaches the caller. *)
Theorem load_absent_or_corrupt (f : Files) (tr : list event) :
  let absent {A} (p : path A) := mkState (path_set p None f) tr in
  let corrupt {A} (p : path A) := mkState (path_set p (Some NotJson) f) tr in
  (load_used_songs (absent USED_SONGS_FILE)
   = (absent USED_SONGS_FILE, Ok ∅)
   /\ load_channel_config (absent CHANNEL_CONFIG_FILE)
      = (absent CHANNEL_CONFIG_FILE, Ok [])
   /\ load_scheduled_songs (absent SCHEDULED_SONGS_FILE)
      = (absent SCHEDULED_SONGS_FILE, Ok ∅)
   /\ load_last_run (mkState (set_last_run_txt None f) tr)
      = (mkState (set_last_run_txt None f) tr, Ok None))
  /\ (load_used_songs (corrupt USED_SONGS_FILE)
      = (corrupt USED_SONGS_FILE, Ok ∅)
      /\ load_channel_config (corrupt CHANNEL_CONFIG_FILE)
         = (corrupt CHANNEL_CONFIG_FILE, Ok [])
      /\ load_scheduled_songs (corrupt SCHEDULED_SONGS_FILE)
         = (corrupt SCHEDULED_SONGS_FILE, Ok ∅))
  /\ ((load_used_songs;; load_used_songs) (corrupt USED_SONGS_FILE)
      = (corrupt USED_SONGS_FILE, Ok ∅)
      /\ (load_channel_config;; load_channel_config)
           (corrupt CHANNEL_CONFIG_FILE)
         = (corrupt CHANNEL_CONFIG_FILE, Ok [])
      /\ (load_scheduled_songs;; load_scheduled_songs)
           (corrupt SCHEDULED_SONGS_FILE)
         = (corrupt SCHEDULED_SONGS_FILE, Ok ∅))
  /\ (forall text,
        has_year (strip text) = false ->
        load_last_run (mkState (set_last_run_txt (Some text) f) tr)
        = (mkState (set_last_run_txt (Some text) f) tr, Raise ValueError)).
Proof.
  cbv zeta. repeat split; try reflexivity.
  intros text Hbad. apply (load_last_run_corrupt text); [done|].
  by apply fromisoformat_no_year.
Qed.

(** The text of a corrupt file is still there after the load, and the
    last-fired-date loader raises, also on the empty file that an
    interrupted [save_last_run] leaves. *)
Lemma load_absent_or_corrupt_counterexample :
  load_last_run (mkState (mkFiles None None (Some "yesterday") None None) [])
  = (mkState (mkFiles None None (Some "yesterday") None None) [],
     Raise ValueError)
  /\ load_last_run (mkState (mkFiles None None (Some "") None None) [])
     = (mkState (mkFiles None None (Some "") None None) [], Raise ValueError)
  /\ load_used_songs (mkState (mkFiles (Some NotJson) None None None None) [])
     = (mkState (mkFiles (Some NotJson) None None None None) [], Ok ∅)
  /\ load_scheduled_songs
       (mkState (mkFiles None None None (Some NotJson) None) [])
     = (mkState (mkFiles None None None (Some NotJson) None) [], Ok ∅).
Proof. repeat split; reflexivity. Qed.

(** The earlier bot's used-songs loader does rewrite a corrupt file, and
    its channel-config loader lets the JSONDecodeError out. *)
Lemma Bot_load_used_songs_resets f tr :
  Bot.load_used_songs (mkState (path_set USED_SONGS_FILE (Some NotJson) f) tr)
  = (mkState (path_set USED_SONGS_FILE (Some (Json [])) f)
       (tr ++ [EvWrite UsedSongs]), Ok ∅).
Proof. reflexivity. Qed.

Lemma Bot_load_channel_config_raises f tr :
  Bot.load_channel_config
    (mkState (path_set CHANNEL_CONFIG_FILE (Some NotJson) f) tr)
  = (mkState (path_set CHANNEL_CONFIG_FILE (Some NotJson) f) tr,
     Raise JSONDecodeError).
Proof. reflexivity. Qed.

(** ** [split] and the first occurrence of the separator *)

Lemma string_drop_empty k : string_drop k "" = "".
Proof. by destruct k. Qed.

Lemma split_from_skip sep k s :
  split_from sep k s = split_from sep 0 (string_drop k s).
Proof.
  revert k. induction s as [|c s IH]; intros [|k]; try reflexivity.
  cbn [split_from string_drop]. apply IH.
Qed.

Lemma split_head sep s : exists rest, split sep s = before sep s :: rest.
Proof.
  unfold split. induction s as [|c s [rest IH]]; [by exists []|].
  cbn [split_from before]. destruct (String.prefix sep (String c s)); [eauto|].
  rewrite IH. eauto.
Qed.

Lemma split_second sep s :
  sep <> "" -> contains sep s = true ->
  exists a, after_first sep s = Some a
            /\ split sep s !! 1 = Some (before sep a).
Proof.
  intros Hsep. unfold split. induction s as [|c s IH]; intros Hin.
  - cbn in Hin. rewrite orb_false_r in Hin. by destruct sep.
  - cbn [contains] in Hin. cbn [split_from after_first].
    destruct (String.prefix sep (String c s)) eqn:Hpre.
    + eexists. split; [reflexivity|].
      destruct sep as [|c0 sep]; [done|]. cbn [String.length string_drop].
      replace (S (String.length sep) - 1) with (String.length sep) by lia.
      rewrite split_from_skip.
      destruct (split_head (String c0 sep) (string_drop (String.length sep) s))
        as [rest Hrest].
      unfold split in Hrest. by rewrite Hrest.
    + cbn [orb] in Hin. destruct (IH Hin) as (a & Ha & Hsplit).
      exists a. split; [done|].
      destruct (split_from sep 0 s) as [|piece rest]; [done|]. exact Hsplit.
Qed.

Lemma prefix_drop p s :
  String.prefix p s = true -> s = p ++ string_drop (String.length p) s.
Proof.
  revert s. induction p as [|c p IH]; intros s Hpre; [done|].
  destruct s as [|c' s]; [done|]. cbn [String.prefix] in Hpre.
  destruct (ascii_dec c c') as [->|]; [|done].
  change (String c' p ++ ?t) with (String c' (p ++ t)).
  cbn [String.length string_drop]. f_equal. by apply IH.
Qed.

(** [after_first] and [before] cut [s] around the separator. *)
Lemma after_first_cut sep s a :
  after_first sep s = Some a -> s = before sep s ++ sep ++ a.
Proof.
  induction s as [|c s IH]; [done|]. cbn [after_first before].
  destruct (String.prefix sep (String c s)) eqn:Hpre.
  - intros [= <-]. change ("" ++ ?t) with t. by apply prefix_drop.
  - intros Ha. change (String c ?u ++ ?t) with (String c (u ++ t)).
    f_equal. by apply IH.
Qed.


(** ** Scheduling an override *)

(** C10, amended. An allowed user, a date string that parses and any
    url containing "/track/": the command succeeds and stores under the
    date the text that follows the first "/track/" up to the next
    "/track/" or "?", whichever comes first (to the end when neither
    follows; possibly empty).  Nothing is checked against the catalog,
    and whatever was stored under that date before is replaced. *)
Theorem schedule_song_stores
    (interaction : Interaction) (date_str spotify_url : string)
    (target : date) (st : State) :
  is_allowed interaction st = (st, Ok true) ->
  fromisoformat date_str = Some target ->
  contains "/track/" spotify_url = true ->
  exists after,
    after_first "/track/" spotify_url = Some after
    /\ spotify_url = before "/track/" spotify_url ++ "/track/" ++ after
    /\ schedule_song interaction date_str spotify_url st
       = (mkState
            (path_set SCHEDULED_SONGS_FILE
               (Some (Json (<[date_str := before "?" (before "/track/" after)]>
                              (override_map (files st)))))
               (files st))
            (trace st ++ [EvWrite ScheduledSongs; EvReply "Song scheduled."]),
          Ok tt).
Proof.
  intros Hok Hdate Hurl.
  destruct (split_second "/track/" spotify_url) as (after & Hafter & Hsplit);
    [done|done|].
  exists after. split; [done|]. split; [by apply after_first_cut|].
  destruct (split_head "?" (before "/track/" after)) as [rest Hhead].
  destruct (fromisoformat_Some _ _ Hdate) as [Hiso _].
  unfold schedule_song. rewrite (bind_ok _ _ _ _ _ Hok). cbn [negb].
  rewrite Hdate, Hurl. cbn [negb]. rewrite Hsplit. cbn [lift_option].
  erewrite bind_ok by reflexivity. rewrite Hhead. cbn [lookup list_lookup lift_option].
  erewrite bind_ok by reflexivity.
  erewrite bind_ok by apply load_scheduled_songs_run.
  rewrite <- Hiso.
  erewrite seq_ok by apply save_scheduled_songs_run.
  cbv [emit files trace]. by rewrite <- app_assoc.
Qed.

Lemma schedule_song_stores_witness :
  exists after,
    after_first "/track/" "https://open.spotify.com/track/zzz?si=1"
    = Some after
    /\ "https://open.spotify.com/track/zzz?si=1"
       = before "/track/" "https://open.spotify.com/track/zzz?si=1"
         ++ "/track/" ++ after
    /\ schedule_song admin "2024-01-04"
         "https://open.spotify.com/track/zzz?si=1"
         (mkState (sample_files [] sample_overrides) [])
       = (mkState
            (path_set SCHEDULED_SONGS_FILE
               (Some (Json (<["2024-01-04"
                              := before "?" (before "/track/" after)]>
                              sample_overrides)))
               (sample_files [] sample_overrides))
            ([] ++ [EvWrite ScheduledSongs; EvReply "Song scheduled."]),
          Ok tt).
Proof.
  apply (schedule_song_stores admin "2024-01-04"
           "https://open.spotify.com/track/zzz?si=1" (mkdate 2024 1 4)
           (mkState (sample_files [] sample_overrides) [])).
  - reflexivity.
  - reflexivity.
  - reflexivity.
Defined.

Lemma schedule_song_stores_counterexample :
  "x/track/a/track/b?c" = "x" ++ "/track/" ++ "a/track/b" ++ "?" ++ "c"
  /\ contains "/track/" "x" = false
  /\ contains "?" "a/track/b" = false
  /\ override_map
       (files (fst (schedule_song admin "2024-01-01" "x/track/a/track/b?c"
                      (mkState no_files []))))
     !! "2024-01-01" = Some "a".
Proof. vm_compute. repeat split; reflexivity. Qed.

(** Through the command alone: an id no catalog track has is stored,
    comes due, and is consumed without a song. *)
Example schedule_song_dangling :
  snd ((schedule_song admin "2024-01-05" "https://x/track/nope?si=1";;
        pick_song sample_env) (mkState no_files []))
  = Ok None.
Proof. vm_compute. reflexivity. Qed.

Example schedule_song_empty_id :
  override_map
    (files (fst (schedule_song admin "2024-01-01" "/track/"
                   (mkState no_files []))))
  !! "2024-01-01" = Some "".
Proof. vm_compute. reflexivity. Qed.

(** * The earlier bot

    The same selection rules hold in [song_of_day_bot.py], where they
    are inlined in [song_of_the_day]. *)

Lemma Bot_load_used_songs_run st :
  exists st',
    Bot.load_used_songs st = (st', Ok (used_set (files st)))
    /\ used_set (files st') = used_set (files st)
    /\ (used_songs_json (files st) <> Some NotJson -> st' = st).
Proof.
  destruct st as [[[[|l]|] c lr s r] tr];
    eexists; (split; [reflexivity|]); by split.
Qed.

Lemma Bot_load_channel_config_run st :
  exists r, Bot.load_channel_config st = (st, r)
            /\ forall cfg, channel_config_json (files st) = Some (Json cfg) ->
                           r = Ok cfg.
Proof.
  destruct st as [[u [[|cfg]|] lr s r] tr]; eexists;
    (split; [reflexivity|]); cbn; congruence.
Qed.

Lemma Bot_song_of_the_day_empty_catalog env st :
  tracks env = [] ->
  used_set (files (fst (Bot.song_of_the_day env st))) = used_set (files st).
Proof.
  intros Hnil. unfold Bot.song_of_the_day, bind.
  destruct (Bot_load_channel_config_run st) as (r & -> & _).
  destruct r as [cfg|e]; [|done].
  case_bool_decide; [done|].
  destruct (Bot_load_used_songs_run st) as (st' & -> & Hused & _).
  by rewrite bool_decide_eq_true_2.
Qed.

Lemma Bot_song_of_the_day_wraparound env st cfg :
  channel_config_json (files st) = Some (Json cfg) -> cfg <> [] ->
  tracks env <> [] ->
  (forall t, t ∈ tracks env -> track_id t ∈ used_set (files st)) ->
  exists song,
    tracks env !! (draw env mod length (tracks env)) = Some song
    /\ used_set (files (fst (Bot.song_of_the_day env st))) = {[track_id song]}.
Proof.
  intros Hcfg Hne Hts Hall.
  destruct (lookup_lt_is_Some_2 (tracks env) (draw env mod length (tracks env)))
    as [song Hsong].
  { apply Nat.mod_upper_bound. by destruct (tracks env). }
  exists song. split; [done|].
  unfold Bot.song_of_the_day.
  destruct (Bot_load_channel_config_run st) as (r & Hload_cfg & Hr).
  rewrite (Hr cfg Hcfg) in Hload_cfg.
  erewrite bind_ok by exact Hload_cfg.
  rewrite (bool_decide_eq_false_2 _ Hne).
  destruct (Bot_load_used_songs_run st) as (st' & Hload & Hused & _).
  erewrite bind_ok by exact Hload.
  rewrite (bool_decide_eq_false_2 _ Hts).
  pose proof (unused_tracks_nil _ _ Hall) as Hnone. unfold unused_tracks in Hnone.
  rewrite (bool_decide_eq_true_2 _ Hnone).
  erewrite bind_ok by (unfold random_choice; rewrite Hsong; reflexivity).
  erewrite seq_ok by apply save_used_songs_run.
  unfold bind.
  destruct (make_embed song _) as [s1 [embed|e]] eqn:Hembed;
    apply make_embed_state in Hembed as ->.
  - destruct (dispatch env (map snd cfg) embed _) as [s2 r2] eqn:Hd.
    apply dispatch_sends in Hd as [Hf _]. cbn [fst]. rewrite Hf.
    cbn [files]. rewrite used_set_saved. apply (right_id_L ∅ (∪)).
  - cbn [fst files]. rewrite used_set_saved. apply (right_id_L ∅ (∪)).
Qed.

Lemma Bot_scheduler_skips env st :
  load_last_run st = (st, Ok (Some (dt_date (now env)))) ->
  Bot.scheduler env st = (st, Ok tt).
Proof.
  intros Hlast. unfold Bot.scheduler. rewrite (bind_ok _ _ _ _ _ Hlast).
  rewrite bool_decide_eq_true_2 by done. by rewrite !andb_false_r.
Qed.


Lemma ilr_path_exists {A} (p : path A) :
  json_path p -> ignores_last_run (path_exists p).
Proof.
  intros [Hget _] c st. cbv [path_exists bind get_files mret M_ret fst snd].
  cbn [with_last_run files]. by rewrite Hget.
Qed.

Lemma ilr_json_load {A} (p : path A) :
  json_path p -> ignores_last_run (json_load p).
Proof.
  intros [Hget _] c st. cbv [json_load bind get_files].
  cbn [with_last_run files]. rewrite Hget.
  by destruct (path_get p (files st)) as [[|v]|].
Qed.

Lemma Bot_testsong_ignores_last_run env : ignores_last_run (Bot.testsong env).
Proof.
  unfold Bot.testsong, Bot.song_of_the_day, Bot.load_channel_config,
    Bot.load_used_songs, Bot.save_used_songs, make_embed, random_choice.
  repeat first
    [ apply ilr_dispatch
    | apply ilr_path_exists; first [apply json_path_used|apply json_path_channels]
    | apply ilr_json_load; first [apply json_path_used|apply json_path_channels]
    | ilr_step ].
Qed.

(** * Further properties of the state helpers and the commands *)

(** X1. Saving a table and loading it back returns what was saved,
    whatever the file held before (nothing, garbage or another
    document): for the used songs, the channel config, the scheduled
    songs and the allowed roles. *)
Theorem save_then_load_round_trip
    (used : gset string) (config : list (string * Z))
    (scheduled : gmap string string) (roles : gmap string (list string))
    (st : State) :
  snd ((save_used_songs used;; load_used_songs) st) = Ok used
  /\ snd ((save_channel_config config;; load_channel_config) st) = Ok config
  /\ snd ((save_scheduled_songs scheduled;; load_scheduled_songs) st)
     = Ok scheduled
  /\ snd ((save_allowed_roles roles;; load_allowed_roles) st) = Ok roles.
Proof.
  split; [|split; [|split]].
  - erewrite seq_ok by apply save_used_songs_run.
    rewrite load_used_songs_run. cbn [snd files]. f_equal. apply used_set_saved.
  - erewrite seq_ok by apply save_json_run. by rewrite load_channel_config_run.
  - erewrite seq_ok by apply save_scheduled_songs_run.
    by rewrite load_scheduled_songs_run.
  - erewrite seq_ok by apply save_json_run.
    unfold load_allowed_roles. by rewrite load_json_run.
Qed.

(** X2. Saving a valid date as last-run date and loading it back
    returns that date, whatever [last_run.txt] held before. *)
Theorem save_then_load_last_run (d : date) (st : State) :
  valid_date d ->
  (save_last_run d;; load_last_run) st = (write_last_run d st, Ok (Some d)).
Proof.
  intros Hv. erewrite seq_ok by apply save_last_run_run.
  by apply load_last_run_written.
Qed.

Lemma save_then_load_last_run_witness :
  (save_last_run (mkdate 2024 2 29);; load_last_run)
    (mkState (mkFiles None None (Some "garbage") None None) [])
  = (write_last_run (mkdate 2024 2 29)
       (mkState (mkFiles None None (Some "garbage") None None) []),
     Ok (Some (mkdate 2024 2 29))).
Proof. apply save_then_load_last_run. reflexivity. Defined.

Lemma is_allowed_run interaction st :
  is_allowed interaction st = (st, Ok (permitted interaction (files st))).
Proof.
  unfold is_allowed, permitted. destruct (administrator interaction);
    [reflexivity|].
  unfold load_allowed_roles. erewrite bind_ok by apply load_json_run.
  reflexivity.
Qed.


(** X4. A user the permission check turns away changes nothing:
    every guarded command only replies "Permission denied." and leaves
    all files as they were. *)
Theorem denied_commands_change_nothing
    (interaction : Interaction) (env : Env) (channel : Z)
    (date_str spotify_url : string) (st : State) :
  permitted interaction (files st) = false ->
  setchannel interaction channel st
  = (replied "Permission denied." st, Ok tt)
  /\ schedule_song interaction date_str spotify_url st
     = (replied "Permission denied." st, Ok tt)
  /\ unschedule_song interaction date_str st
     = (replied "Permission denied." st, Ok tt)
  /\ clear_schedule interaction st
     = (replied "Permission denied." st, Ok tt)
  /\ test_sotd interaction env st
     = (replied "Permission denied." st, Ok tt).
Proof.
  intros Hno.
  pose proof (is_allowed_run interaction st) as Hrun. rewrite Hno in Hrun.
  repeat split;
    [unfold setchannel|unfold schedule_song|unfold unschedule_song
    |unfold clear_schedule|unfold test_sotd];
    rewrite (bind_ok _ _ _ _ _ Hrun); reflexivity.
Qed.

Lemma denied_commands_change_nothing_witness :
  setchannel member 7%Z (mkState (sample_files [] sample_overrides) [])
  = (replied "Permission denied."
       (mkState (sample_files [] sample_overrides) []), Ok tt)
  /\ schedule_song member "2024-01-01" "https://x/track/aaa"
       (mkState (sample_files [] sample_overrides) [])
     = (replied "Permission denied."
          (mkState (sample_files [] sample_overrides) []), Ok tt)
  /\ unschedule_song member "2024-01-01"
       (mkState (sample_files [] sample_overrides) [])
     = (replied "Permission denied."
          (mkState (sample_files [] sample_overrides) []), Ok tt)
  /\ clear_schedule member (mkState (sample_files [] sample_overrides) [])
     = (replied "Permission denied."
          (mkState (sample_files [] sample_overrides) []), Ok tt)
  /\ test_sotd member sample_env
       (mkState (sample_files [] sample_overrides) [])
     = (replied "Permission denied."
          (mkState (sample_files [] sample_overrides) []), Ok tt).
Proof.
  apply (denied_commands_change_nothing member sample_env 7%Z "2024-01-01"
           "https://x/track/aaa").
  reflexivity.
Defined.
(** ** What the commands do to the schedule *)

Lemma iso_keys_iff m :
  iso_keys m <-> forall k, is_Some (m !! k) -> is_Some (fromisoformat k).
Proof.
  unfold iso_keys. rewrite Forall_forall. split.
  - intros H k Hk. by apply H, keys_elem_of.
  - intros H k Hk. by apply H, keys_elem_of.
Qed.

Lemma iso_keys_empty : iso_keys ∅.
Proof. apply iso_keys_iff. intros k [v Hv]. by rewrite lookup_empty in Hv. Qed.

Lemma iso_keys_delete m k : iso_keys m -> iso_keys (delete k m).
Proof.
  rewrite !iso_keys_iff. intros H k' [v Hv].
  apply lookup_delete_Some in Hv as [_ Hv]. apply H. eauto.
Qed.

Lemma iso_keys_insert m k v :
  is_Some (fromisoformat k) -> iso_keys m -> iso_keys (<[k := v]> m).
Proof.
  rewrite !iso_keys_iff. intros Hk H k' [v' Hv'].
  apply lookup_insert_Some in Hv' as [[<- _]|[_ Hv']]; [done|]. apply H. eauto.
Qed.

Lemma schedule_song_ok interaction date_str spotify_url target st :
  permitted interaction (files st) = true ->
  fromisoformat date_str = Some target ->
  contains "/track/" spotify_url = true ->
  schedule_song interaction date_str spotify_url st
  = (replied "Song scheduled."
       (write_scheduled
          (<[date_str := url_track_id spotify_url]> (override_map (files st)))
          st),
     Ok tt).
Proof.
  intros Hok Hdate Hurl.
  pose proof (is_allowed_run interaction st) as Hrun. rewrite Hok in Hrun.
  destruct (split_second "/track/" spotify_url) as (after & Hafter & Hsplit);
    [done|done|].
  destruct (split_head "?" (before "/track/" after)) as [rest Hhead].
  destruct (fromisoformat_Some _ _ Hdate) as [Hiso _].
  unfold schedule_song, url_track_id. rewrite (bind_ok _ _ _ _ _ Hrun).
  cbn [negb]. rewrite Hdate, Hurl, Hafter. cbn [negb]. rewrite Hsplit.
  cbn [lift_option]. erewrite bind_ok by reflexivity. rewrite Hhead.
  cbn [lookup list_lookup lift_option].
  erewrite bind_ok by reflexivity.
  erewrite bind_ok by apply load_scheduled_songs_run.
  rewrite <- Hiso.
  erewrite seq_ok by apply save_scheduled_songs_run. reflexivity.
Qed.

Lemma schedule_song_bad_date interaction date_str spotify_url st :
  permitted interaction (files st) = true ->
  fromisoformat date_str = None ->
  schedule_song interaction date_str spotify_url st
  = (replied "Invalid date format (YYYY-MM-DD)." st, Ok tt).
Proof.
  intros Hok Hdate.
  pose proof (is_allowed_run interaction st) as Hrun. rewrite Hok in Hrun.
  unfold schedule_song. rewrite (bind_ok _ _ _ _ _ Hrun). cbn [negb].
  by rewrite Hdate.
Qed.

Lemma schedule_song_bad_url interaction date_str spotify_url target st :
  permitted interaction (files st) = true ->
  fromisoformat date_str = Some target ->
  contains "/track/" spotify_url = false ->
  schedule_song interaction date_str spotify_url st
  = (replied "Invalid Spotify track URL." st, Ok tt).
Proof.
  intros Hok Hdate Hurl.
  pose proof (is_allowed_run interaction st) as Hrun. rewrite Hok in Hrun.
  unfold schedule_song. rewrite (bind_ok _ _ _ _ _ Hrun). cbn [negb].
  by rewrite Hdate, Hurl.
Qed.

(** X5. A date string that does not begin with a four-digit year, as
    every date [date.fromisoformat] reads does, or a url without
    "/track/" ends the command in a single reply: no file is written,
    whoever asks.  For an allowed user the reply to such a date string
    is "Invalid date format (YYYY-MM-DD).", and the reply to such a url
    after a date in the form YYYY-MM-DD is "Invalid Spotify track
    URL.". *)
Theorem schedule_song_rejects
    (interaction : Interaction) (date_str spotify_url : string) (st : State) :
  has_year date_str = false \/ contains "/track/" spotify_url = false ->
  (exists msg,
     schedule_song interaction date_str spotify_url st
     = (replied msg st, Ok tt))
  /\ (permitted interaction (files st) = true ->
      has_year date_str = false ->
      schedule_song interaction date_str spotify_url st
      = (replied "Invalid date format (YYYY-MM-DD)." st, Ok tt))
  /\ (permitted interaction (files st) = true ->
      is_Some (fromisoformat date_str) ->
      contains "/track/" spotify_url = false ->
      schedule_song interaction date_str spotify_url st
      = (replied "Invalid Spotify track URL." st, Ok tt)).
Proof.
  intros Hbad. split; [|split].
  - destruct (permitted interaction (files st)) eqn:Hok.
    + destruct (fromisoformat date_str) as [target|] eqn:Hdate.
      * destruct Hbad as [Hyear|Hurl].
        -- apply fromisoformat_has_year in Hdate. congruence.
        -- eexists. by apply (schedule_song_bad_url _ _ _ target).
      * eexists. by apply schedule_song_bad_date.
    + eexists. pose proof (is_allowed_run interaction st) as Hrun.
      rewrite Hok in Hrun. unfold schedule_song.
      rewrite (bind_ok _ _ _ _ _ Hrun). reflexivity.
  - intros Hok Hyear. apply schedule_song_bad_date; [done|].
    by apply fromisoformat_no_year.
  - intros Hok [target Hdate] Hurl.
    by apply (schedule_song_bad_url _ _ _ target).
Qed.

Lemma schedule_song_rejects_witness :
  (exists msg,
     schedule_song admin "tomorrow" "https://open.spotify.com/track/aaa"
       (mkState (sample_files [] sample_overrides) [])
     = (replied msg (mkState (sample_files [] sample_overrides) []), Ok tt))
  /\ (permitted admin (sample_files [] sample_overrides) = true ->
      has_year "tomorrow" = false ->
      schedule_song admin "tomorrow" "https://open.spotify.com/track/aaa"
        (mkState (sample_files [] sample_overrides) [])
      = (replied "Invalid date format (YYYY-MM-DD)."
           (mkState (sample_files [] sample_overrides) []), Ok tt))
  /\ (permitted admin (sample_files [] sample_overrides) = true ->
      is_Some (fromisoformat "tomorrow") ->
      contains "/track/" "https://open.spotify.com/track/aaa" = false ->
      schedule_song admin "tomorrow" "https://open.spotify.com/track/aaa"
        (mkState (sample_files [] sample_overrides) [])
      = (replied "Invalid Spotify track URL."
           (mkState (sample_files [] sample_overrides) []), Ok tt)).
Proof. apply schedule_song_rejects. left. reflexivity. Defined.

Lemma unschedule_song_run interaction date_str st :
  permitted interaction (files st) = true ->
  unschedule_song interaction date_str st
  = if bool_decide (override_map (files st) !! date_str = None)
    then (replied "Nothing scheduled for that date." st, Ok tt)
    else (replied "Schedule removed."
            (write_scheduled (delete date_str (override_map (files st))) st),
          Ok tt).
Proof.
  intros Hok.
  pose proof (is_allowed_run interaction st) as Hrun. rewrite Hok in Hrun.
  unfold unschedule_song. rewrite (bind_ok _ _ _ _ _ Hrun). cbn [negb].
  erewrite bind_ok by apply load_scheduled_songs_run.
  case_bool_decide; [reflexivity|].
  erewrite seq_ok by apply save_scheduled_songs_run. reflexivity.
Qed.

Lemma clear_schedule_run interaction st :
  permitted interaction (files st) = true ->
  clear_schedule interaction st
  = (replied "All scheduled songs cleared." (write_scheduled ∅ st), Ok tt).
Proof.
  intros Hok.
  pose proof (is_allowed_run interaction st) as Hrun. rewrite Hok in Hrun.
  unfold clear_schedule. rewrite (bind_ok _ _ _ _ _ Hrun). cbn [negb].
  erewrite seq_ok by apply save_scheduled_songs_run. reflexivity.
Qed.

(** X6. Scheduling a song for a date and then unscheduling that date
    under [target.isoformat()], the key [schedule_song] stores it under
    and [view_schedule] shows, leaves no override for the date and
    every other override as it was; the removal finds the entry. *)
Theorem schedule_then_unschedule
    (interaction : Interaction) (date_str spotify_url : string)
    (target : date) (st : State) :
  permitted interaction (files st) = true ->
  fromisoformat date_str = Some target ->
  contains "/track/" spotify_url = true ->
  exists st',
    (schedule_song interaction date_str spotify_url;;
     unschedule_song interaction (isoformat target)) st = (st', Ok tt)
    /\ override_map (files st')
       = delete (isoformat target) (override_map (files st))
    /\ last (trace st') = Some (EvReply "Schedule removed.").
Proof.
  intros Hok Hdate Hurl.
  destruct (fromisoformat_Some _ _ Hdate) as [Hiso _].
  erewrite seq_ok by (by apply (schedule_song_ok _ _ _ target)).
  rewrite unschedule_song_run by exact Hok. rewrite <- Hiso.
  cbn [replied write_scheduled files].
  change (override_map (path_set SCHEDULED_SONGS_FILE (Some (Json ?m)) _))
    with m.
  rewrite bool_decide_eq_false_2 by (by rewrite lookup_insert_eq).
  eexists. split; [reflexivity|]. split.
  - cbn. by rewrite delete_insert_eq.
  - cbn [trace replied]. by rewrite last_snoc.
Qed.

Lemma schedule_then_unschedule_witness :
  exists st',
    (schedule_song admin "2024-01-04" "https://open.spotify.com/track/bbb";;
     unschedule_song admin (isoformat (mkdate 2024 1 4)))
      (mkState (sample_files [] sample_overrides) []) = (st', Ok tt)
    /\ override_map (files st')
       = delete (isoformat (mkdate 2024 1 4))
           (override_map (sample_files [] sample_overrides))
    /\ last (trace st') = Some (EvReply "Schedule removed.").
Proof.
  apply (schedule_then_unschedule admin "2024-01-04"
           "https://open.spotify.com/track/bbb" (mkdate 2024 1 4)
           (mkState (sample_files [] sample_overrides) []));
    reflexivity.
Defined.

(** X7. Selection returns only tracks of the catalog it was given, and
    whenever it returns one that track's id is in the used-set written
    back; it never marks any other id as used and never adds an
    override. *)
Theorem pick_song_sound (env : Env) (st st' : State) (song : Track) :
  pick_song env st = (st', Ok (Some song)) ->
  song ∈ tracks env
  /\ track_id song ∈ used_set (files st')
  /\ used_set (files st') ⊆ {[track_id song]} ∪ used_set (files st)
  /\ override_map (files st') ⊆ override_map (files st).
Proof.
  intros Hrun.
  destruct (pick_song_outcome env st)
    as [[_ H]|[(_ & _ & H)|[(k & v & _ & _ & Hv & _ & H)
                           |(s & _ & _ & _ & Hin & H)]]];
    cbv zeta in H; rewrite H in Hrun; try discriminate.
  - destruct (build_lookup (tracks env) !! v) as [s|] eqn:Hlook;
      [|discriminate].
    injection Hrun as <- <-. apply build_lookup_Some in Hlook as [Hin _].
    rewrite used_set_write_used. repeat split; try done.
    + apply elem_of_union. left. by apply elem_of_singleton.
    + apply delete_subseteq.
  - injection Hrun as <- <-. rewrite used_set_write_used.
    split; [by apply pool_elem_of in Hin|]. split; [|split].
    + apply elem_of_union. left. by apply elem_of_singleton.
    + unfold pool_used. case_bool_decide; [|done].
      intros x Hx. apply elem_of_union in Hx as [Hx|Hx];
        [apply elem_of_union; by left|by apply elem_of_empty in Hx].
    + done.
Qed.

Lemma pick_song_sound_witness :
  track_b ∈ [track_a; track_b]
  /\ "bbb" ∈ used_set (sample_files ["bbb"] ∅)
  /\ used_set (sample_files ["bbb"] ∅) ⊆ {["bbb"]} ∪ used_set (sample_files [] ∅)
  /\ override_map (sample_files ["bbb"] ∅) ⊆ override_map (sample_files [] ∅).
Proof.
  apply (pick_song_sound sample_env (mkState (sample_files [] ∅) [])
           (mkState (sample_files ["bbb"] ∅) [EvWrite UsedSongs]) track_b).
  vm_compute. reflexivity.
Defined.

(** X8. One key in the scheduled-songs file that does not begin with a
    four-digit year, and so is no date to any version of
    [date.fromisoformat], stops selection altogether: with a non-empty
    catalog [pick_song] raises ValueError before it writes anything,
    also when no override is due and unused tracks remain, and
    [song_of_the_day] passes the error on without sending. *)
Theorem pick_song_malformed_key (env : Env) (st : State) (k v : string) :
  tracks env <> [] ->
  override_map (files st) !! k = Some v ->
  has_year k = false ->
  pick_song env st = (st, Raise ValueError)
  /\ (destinations (files st) <> [] ->
      song_of_the_day env st = (st, Raise ValueError)).
Proof.
  intros Hne Hk Hbad.
  assert (pick_song env st = (st, Raise ValueError)) as Hrun.
  { apply pick_song_raise_keys; [done|]. rewrite iso_keys_iff. intros Hiso.
    destruct (Hiso k) as [d Hd]; [eauto|].
    apply fromisoformat_has_year in Hd. congruence. }
  split; [done|]. intros Hdest. unfold song_of_the_day.
  erewrite bind_ok by apply load_channel_config_run.
  rewrite bool_decide_eq_false_2 by done.
  by erewrite bind_raise by exact Hrun.
Qed.

Lemma pick_song_malformed_key_witness :
  pick_song sample_env
    (mkState (sample_files [] (<["next friday" := "aaa"]> ∅)) [])
  = (mkState (sample_files [] (<["next friday" := "aaa"]> ∅)) [],
     Raise ValueError)
  /\ (destinations (sample_files [] (<["next friday" := "aaa"]> ∅)) <> [] ->
      song_of_the_day sample_env
        (mkState (sample_files [] (<["next friday" := "aaa"]> ∅)) [])
      = (mkState (sample_files [] (<["next friday" := "aaa"]> ∅)) [],
         Raise ValueError)).
Proof.
  apply (pick_song_malformed_key sample_env
           (mkState (sample_files [] (<["next friday" := "aaa"]> ∅)) [])
           "next friday" "aaa").
  - discriminate.
  - vm_compute. reflexivity.
  - reflexivity.
Defined.

(** X9. ISO-date keys are an invariant of the schedule: if every key of
    the scheduled-songs file parses as a date, it still does after
    [schedule_song], [unschedule_song], [clear_schedule] and
    [pick_song], whatever their arguments and outcome. *)
Theorem iso_keys_preserved
    (interaction : Interaction) (env : Env) (date_str spotify_url : string)
    (st : State) :
  iso_keys (override_map (files st)) ->
  iso_keys (override_map
              (files (fst (schedule_song interaction date_str spotify_url st))))
  /\ iso_keys (override_map
                 (files (fst (unschedule_song interaction date_str st))))
  /\ iso_keys (override_map (files (fst (clear_schedule interaction st))))
  /\ iso_keys (override_map (files (fst (pick_song env st)))).
Proof.
  intros Hiso.
  pose proof (is_allowed_run interaction st) as Hrun.
  destruct (permitted interaction (files st)) eqn:Hok.
  - split; [|split; [|split]].
    + destruct (fromisoformat date_str) as [target|] eqn:Hdate.
      * destruct (contains "/track/" spotify_url) eqn:Hurl.
        -- rewrite (schedule_song_ok _ _ _ target) by done.
           apply iso_keys_insert; [by rewrite Hdate|done].
        -- by rewrite (schedule_song_bad_url _ _ _ target).
      * by rewrite schedule_song_bad_date.
    + rewrite unschedule_song_run by done. case_bool_decide; [done|].
      by apply iso_keys_delete.
    + rewrite clear_schedule_run by done. apply iso_keys_empty.
    + destruct (pick_song_outcome env st)
        as [[_ H]|[(_ & _ & H)|[(k & v & _ & _ & _ & _ & H)
                               |(s & _ & _ & _ & _ & H)]]];
        cbv zeta in H; rewrite H; try done.
      destruct (build_lookup (tracks env) !! v); by apply iso_keys_delete.
  - split; [|split; [|split]].
    + unfold schedule_song. by rewrite (bind_ok _ _ _ _ _ Hrun).
    + unfold unschedule_song. by rewrite (bind_ok _ _ _ _ _ Hrun).
    + unfold clear_schedule. by rewrite (bind_ok _ _ _ _ _ Hrun).
    + destruct (pick_song_outcome env st)
        as [[_ H]|[(_ & _ & H)|[(k & v & _ & _ & _ & _ & H)
                               |(s & _ & _ & _ & _ & H)]]];
        cbv zeta in H; rewrite H; try done.
      destruct (build_lookup (tracks env) !! v); by apply iso_keys_delete.
Qed.

Lemma iso_keys_preserved_witness :
  iso_keys (override_map
              (files (fst (schedule_song admin "2024-03-01"
                             "https://open.spotify.com/track/bbb?si=1"
                             (mkState (sample_files [] sample_overrides) [])))))
  /\ iso_keys (override_map
                 (files (fst (unschedule_song admin "2024-03-01"
                                (mkState (sample_files [] sample_overrides)
                                   [])))))
  /\ iso_keys (override_map
                 (files (fst (clear_schedule admin
                                (mkState (sample_files [] sample_overrides)
                                   [])))))
  /\ iso_keys (override_map
                 (files (fst (pick_song sample_env
                                (mkState (sample_files [] sample_overrides)
                                   []))))).
Proof.
  apply (iso_keys_preserved admin sample_env "2024-03-01"
           "https://open.spotify.com/track/bbb?si=1"
           (mkState (sample_files [] sample_overrides) [])).
  apply iso_keys_check. vm_compute. reflexivity.
Defined.
(** ** Commands followed by a selection *)

(** X10. After an allowed [clear_schedule] no override is left, so the
    next selection against a non-empty catalog takes the random path:
    it returns a catalog track drawn from the unused ones (from the
    whole catalog when none is unused), whatever was scheduled before,
    malformed keys included. *)
Theorem clear_schedule_then_pick
    (interaction : Interaction) (env : Env) (st : State) :
  permitted interaction (files st) = true ->
  tracks env <> [] ->
  exists st' song,
    (clear_schedule interaction;; pick_song env) st = (st', Ok (Some song))
    /\ song ∈ pool (used_set (files st)) (tracks env)
    /\ override_map (files st') = ∅.
Proof.
  intros Hok Hne.
  erewrite seq_ok by (by apply clear_schedule_run).
  set (st0 := replied _ _).
  destruct (pick_song_random env st0 Hne) as (song & Hsong & Hrun).
  { apply iso_keys_empty. }
  { reflexivity. }
  eexists _, song. split; [exact Hrun|].
  split; [by apply list_elem_of_lookup_2 in Hsong|reflexivity].
Qed.

Lemma clear_schedule_then_pick_witness :
  exists st' song,
    (clear_schedule admin;; pick_song sample_env)
      (mkState (sample_files ["aaa"] (<["someday" := "x"]> sample_overrides))
         [])
    = (st', Ok (Some song))
    /\ song ∈ pool (used_set (sample_files ["aaa"]
                               (<["someday" := "x"]> sample_overrides)))
                [track_a; track_b]
    /\ override_map (files st') = ∅.
Proof.
  apply (clear_schedule_then_pick admin sample_env
           (mkState (sample_files ["aaa"]
                       (<["someday" := "x"]> sample_overrides)) [])).
  - reflexivity.
  - discriminate.
Defined.

(** X11. An override scheduled for a date on or before today, when no
    override already stored is due earlier, is what the next selection
    consumes: it returns the catalog track with the scheduled id (no
    track if the catalog has none with that id) and the override map is
    back to what it was before, less any entry the new one replaced. *)
Theorem schedule_then_pick
    (interaction : Interaction) (env : Env) (date_str spotify_url : string)
    (target : date) (st : State) :
  permitted interaction (files st) = true ->
  fromisoformat date_str = Some target ->
  contains "/track/" spotify_url = true ->
  tracks env <> [] ->
  iso_keys (override_map (files st)) ->
  date_le target (dt_date (now env)) = true ->
  (forall k d, is_Some (override_map (files st) !! k) ->
               fromisoformat k = Some d ->
               date_le d (dt_date (now env)) = true ->
               date_le target d = true) ->
  exists st',
    (schedule_song interaction date_str spotify_url;; pick_song env) st
    = (st', Ok (build_lookup (tracks env) !! url_track_id spotify_url))
    /\ override_map (files st') = delete date_str (override_map (files st)).
Proof.
  intros Hok Hdate Hurl Hne Hiso Hdue Hmin.
  erewrite seq_ok by (by apply (schedule_song_ok _ _ _ target)).
  set (m := <[date_str := url_track_id spotify_url]> (override_map (files st))).
  set (st0 := replied _ _).
  assert (override_map (files st0) = m) as Hm by reflexivity.
  assert (iso_keys (override_map (files st0))) as Hiso0.
  { rewrite Hm. apply iso_keys_insert; [by rewrite Hdate|done]. }
  destruct (earliest_due_head (override_map (files st0)) (dt_date (now env))
              date_str target) as [rest Hhead].
  { rewrite Hm. unfold m. rewrite lookup_insert_eq. eauto. }
  { done. }
  { done. }
  { intros k d [v Hv] Hd Hle. rewrite Hm in Hv. unfold m in Hv.
    apply lookup_insert_Some in Hv as [[<- _]|[_ Hv]].
    - assert (d = target) as -> by congruence.
      rewrite <- (parsed_keys_leb _ _ _ _ Hdate Hdate).
      destruct (String.leb_total date_str date_str); done.
    - apply (Hmin k); eauto. }
  rewrite (pick_song_override env st0 date_str rest
             (url_track_id spotify_url) Hne Hiso0 Hhead)
    by (rewrite Hm; apply lookup_insert_eq).
  cbv zeta. rewrite Hm. unfold m. rewrite delete_insert_eq.
  destruct (build_lookup (tracks env) !! url_track_id spotify_url);
    eexists; split; reflexivity.
Qed.

Lemma schedule_then_pick_witness :
  exists st',
    (schedule_song admin "2024-01-01" "https://open.spotify.com/track/aaa?si=9";;
     pick_song sample_env)
      (mkState (sample_files ["aaa"] sample_overrides) [])
    = (st', Ok (build_lookup [track_a; track_b]
                  !! url_track_id "https://open.spotify.com/track/aaa?si=9"))
    /\ override_map (files st') = delete "2024-01-01" sample_overrides.
Proof.
  apply (schedule_then_pick admin sample_env "2024-01-01"
           "https://open.spotify.com/track/aaa?si=9" (mkdate 2024 1 1)
           (mkState (sample_files ["aaa"] sample_overrides) [])).
  - reflexivity.
  - reflexivity.
  - reflexivity.
  - discriminate.
  - apply iso_keys_check. vm_compute. reflexivity.
  - reflexivity.
  - apply earliest_check. vm_compute. reflexivity.
Defined.

(** ** A whole round of the playlist *)

(** X12. With unique ids, as many random-path selections as the catalog
    has tracks, from an empty used-set, return every track of the
    catalog exactly once (in some order), and leave every id used. *)
Theorem pick_songs_full_round (ts : list Track) (envs : list Env) (st : State) :
  unique_ids ts ->
  Forall (fun env => tracks env = ts) envs ->
  length envs = length ts ->
  used_set (files st) = ∅ ->
  iso_keys (override_map (files st)) ->
  Forall (fun env => due_list (override_map (files st))
                       (dt_date (now env)) = []) envs ->
  exists songs st',
    pick_songs envs st = (st', Ok (map Some songs))
    /\ songs ≡ₚ ts
    /\ used_set (files st') = list_to_set (map track_id ts).
Proof.
  intros Huniq Hts Hlen Hused Hiso Hdue.
  destruct (pick_songs_distinct_from ts envs Huniq Hts st)
    as (songs & st' & Hrun & Hl & Hnd & Hall & Hused'); try done.
  { rewrite Hused, size_empty. lia. }
  assert (songs ≡ₚ ts) as Hperm.
  { apply submseteq_length_Permutation; [|lia].
    apply NoDup_submseteq.
    - change (map track_id songs) with (track_id <$> songs) in Hnd.
      by apply NoDup_fmap_1 in Hnd.
    - intros s Hs. rewrite Forall_forall in Hall. by apply Hall. }
  exists songs, st'. split; [done|]. split; [done|].
  rewrite Hused', Hused, (right_id_L ∅ (∪)).
  apply set_eq. intros i. rewrite !elem_of_list_to_set.
  change (map track_id songs) with (track_id <$> songs).
  change (map track_id ts) with (track_id <$> ts). by rewrite Hperm.
Qed.

Lemma pick_songs_full_round_witness :
  exists songs st',
    pick_songs [sample_env; sample_env] (mkState (sample_files [] ∅) [])
    = (st', Ok (map Some songs))
    /\ songs ≡ₚ [track_a; track_b]
    /\ used_set (files st') = list_to_set (map track_id [track_a; track_b]).
Proof.
  apply (pick_songs_full_round [track_a; track_b] [sample_env; sample_env]
           (mkState (sample_files [] ∅) [])).
  - unfold unique_ids. apply (bool_decide_unpack _). vm_compute. exact I.
  - repeat constructor.
  - reflexivity.
  - reflexivity.
  - apply iso_keys_check. vm_compute. reflexivity.
  - repeat constructor.
Defined.
(** ** Registering a channel *)

Lemma dict_get_set_eq {V} key (value : V) d :
  dict_get key (dict_set key value d) = Some value.
Proof.
  induction d as [|[k v] d IH]; cbn [dict_set dict_get].
  - by rewrite bool_decide_eq_true_2.
  - destruct (decide (k = key)) as [->|Hk].
    + rewrite bool_decide_eq_true_2 by done. cbn [dict_get].
      by rewrite bool_decide_eq_true_2.
    + rewrite bool_decide_eq_false_2 by done. cbn [dict_get].
      by rewrite bool_decide_eq_false_2.
Qed.

Lemma dict_get_set_ne {V} key key' (value : V) d :
  key <> key' -> dict_get key' (dict_set key value d) = dict_get key' d.
Proof.
  intros Hne. induction d as [|[k v] d IH]; cbn [dict_set dict_get].
  - by rewrite bool_decide_eq_false_2.
  - destruct (decide (k = key)) as [->|Hk].
    + rewrite bool_decide_eq_true_2 by done. cbn [dict_get].
      by rewrite !bool_decide_eq_false_2.
    + rewrite (bool_decide_eq_false_2 (k = key)) by done. cbn [dict_get].
      by rewrite IH.
Qed.

Lemma dict_set_keys {V} key (value : V) d :
  map fst (dict_set key value d)
  = if bool_decide (key ∈ map fst d) then map fst d
    else (map fst d ++ [key])%list.
Proof.
  induction d as [|[k v] d IH]; cbn [dict_set map fst].
  - rewrite bool_decide_eq_false_2; [done|]. apply not_elem_of_nil.
  - destruct (decide (k = key)) as [->|Hk].
    + rewrite bool_decide_eq_true_2 by done. cbn [map fst].
      rewrite bool_decide_eq_true_2; [done|]. left.
    + rewrite (bool_decide_eq_false_2 (k = key)) by done. cbn [map fst].
      rewrite IH. destruct (decide (key ∈ map fst d)) as [Hin|Hin].
      * rewrite !bool_decide_eq_true_2; [done|by right|done].
      * rewrite !bool_decide_eq_false_2; [done| |done].
        intros [?|?]%elem_of_cons; congruence.
Qed.

(** X13. An allowed [setchannel] makes the given channel the guild's
    destination and changes no other guild's: a guild already
    registered keeps its place in the order with the new channel, a new
    guild is added at the end, and no guild ever appears twice. *)
Theorem setchannel_registers
    (interaction : Interaction) (channel : Z) (st : State) :
  permitted interaction (files st) = true ->
  exists st',
    setchannel interaction channel st = (st', Ok tt)
    /\ dict_get (guild_key interaction) (destinations (files st'))
       = Some channel
    /\ (forall guild, guild <> guild_key interaction ->
          dict_get guild (destinations (files st'))
          = dict_get guild (destinations (files st)))
    /\ map fst (destinations (files st'))
       = (if bool_decide (guild_key interaction
                            ∈ map fst (destinations (files st)))
          then map fst (destinations (files st))
          else (map fst (destinations (files st))
                ++ [guild_key interaction])%list)
    /\ (NoDup (map fst (destinations (files st))) ->
        NoDup (map fst (destinations (files st')))).
Proof.
  intros Hok.
  pose proof (is_allowed_run interaction st) as Hrun. rewrite Hok in Hrun.
  eexists. split.
  { unfold setchannel. rewrite (bind_ok _ _ _ _ _ Hrun). cbn [negb].
    erewrite bind_ok by apply load_channel_config_run.
    erewrite seq_ok by apply save_json_run. reflexivity. }
  cbn [files emit fst]. 
  change (destinations (path_set CHANNEL_CONFIG_FILE (Some (Json ?d)) _))
    with d.
  split; [apply dict_get_set_eq|]. split; [|split].
  - intros guild Hne. by apply dict_get_set_ne.
  - apply dict_set_keys.
  - intros Hnd. rewrite dict_set_keys. case_bool_decide as Hin; [done|].
    apply NoDup_app. split; [done|]. split.
    + intros k Hk [->|[]%elem_of_nil]%elem_of_cons. done.
    + apply NoDup_singleton.
Qed.

Lemma setchannel_registers_witness :
  exists st',
    setchannel admin 99%Z (mkState (sample_files [] ∅) []) = (st', Ok tt)
    /\ dict_get "guild" (destinations (files st')) = Some 99%Z
    /\ (forall guild, guild <> "guild" ->
          dict_get guild (destinations (files st'))
          = dict_get guild [("guild", 42%Z)])
    /\ map fst (destinations (files st'))
       = (if bool_decide ("guild" ∈ map fst [("guild", 42%Z)])
          then map fst [("guild", 42%Z)]
          else (map fst [("guild", 42%Z)] ++ ["guild"])%list)
    /\ (NoDup (map fst [("guild", 42%Z)]) ->
        NoDup (map fst (destinations (files st')))).
Proof.
  apply (setchannel_registers admin 99%Z (mkState (sample_files [] ∅) [])).
  reflexivity.
Defined.

(** ** Dispatch *)

(** The channels the client resolves among the configured ids, in
    order. *)
Lemma dispatch_run_sendable env ids embed st :
  (forall id ch, id ∈ ids -> get_channel env id = Some ch ->
                 sendable ch = true) ->
  dispatch env ids embed st
  = (mkState (files st)
       (trace st ++ map (fun ch => EvSend (channel_id ch) embed)
                      (omap (get_channel env) ids)),
     Ok tt).
Proof.
  revert st. induction ids as [|id ids IH]; intros st Hall.
  - cbn. rewrite app_nil_r. by destruct st.
  - cbn [dispatch omap list_omap].
    destruct (get_channel env id) as [ch|] eqn:Hch.
    + assert (sendable ch = true) as Hs by (apply (Hall id); [left|done]).
      unfold channel_send. rewrite Hs.
      erewrite seq_ok by reflexivity.
      rewrite IH by (intros ? ? ?; apply Hall; by right).
      cbn [files trace map]. by rewrite <- app_assoc.
    + erewrite seq_ok by reflexivity.
      apply IH. intros ? ? ?; apply Hall; by right.
Qed.

(** X14. When every configured channel the client resolves accepts the
    message, dispatch sends the embed exactly once to each of them, in
    the order of the channel config, skips the ids the client does not
    resolve without an error, and touches no file. *)
Theorem dispatch_reaches_every_channel
    (env : Env) (ids : list Z) (embed : Embed) (st : State) :
  (forall id ch, id ∈ ids -> get_channel env id = Some ch ->
                 sendable ch = true) ->
  dispatch env ids embed st
  = (mkState (files st)
       (trace st ++ map (fun ch => EvSend (channel_id ch) embed)
                      (omap (get_channel env) ids)),
     Ok tt).
Proof. apply dispatch_run_sendable. Qed.

Lemma dispatch_reaches_every_channel_witness :
  dispatch (mkEnv [] (jan 5 11 30 0) 0 odd_channels)
    [1%Z; 2%Z; 3%Z] (mkEmbed "t" "u" "d" "i") (mkState no_files [])
  = (mkState no_files
       ([] ++ map (fun ch => EvSend (channel_id ch) (mkEmbed "t" "u" "d" "i"))
                (omap odd_channels [1%Z; 2%Z; 3%Z])),
     Ok tt).
Proof.
  apply (dispatch_reaches_every_channel
           (mkEnv [] (jan 5 11 30 0) 0 odd_channels)
           [1%Z; 2%Z; 3%Z] (mkEmbed "t" "u" "d" "i") (mkState no_files [])).
  intros id ch _. cbn [get_channel]. unfold odd_channels.
  destruct (Z.even id); [done|]. by intros [= <-].
Defined.

(** X15. A send that raises ends the dispatch there: the channels
    before it have their message, the HTTP error goes to the caller,
    and the channels after it in the config are never tried. *)
Theorem dispatch_stops_at_first_failure
    (env : Env) (before_ids after_ids : list Z) (id : Z) (ch : TextChannel)
    (embed : Embed) (st : State) :
  (forall i c, i ∈ before_ids -> get_channel env i = Some c ->
               sendable c = true) ->
  get_channel env id = Some ch ->
  sendable ch = false ->
  dispatch env (before_ids ++ id :: after_ids) embed st
  = (mkState (files st)
       (trace st ++ map (fun c => EvSend (channel_id c) embed)
                      (omap (get_channel env) before_ids)),
     Raise HTTPException).
Proof.
  revert st. induction before_ids as [|i ids IH]; intros st Hall Hch Hbad.
  - cbn [app dispatch omap list_omap map]. rewrite Hch.
    unfold channel_send. rewrite Hbad.
    erewrite seq_raise by reflexivity. rewrite app_nil_r. by destruct st.
  - cbn [app dispatch omap list_omap].
    destruct (get_channel env i) as [c|] eqn:Hc.
    + assert (sendable c = true) as Hs by (apply (Hall i); [left|done]).
      unfold channel_send. rewrite Hs.
      erewrite seq_ok by reflexivity.
      rewrite IH by (try done; intros ? ? ?; apply Hall; by right).
      cbn [files trace map]. by rewrite <- app_assoc.
    + erewrite seq_ok by reflexivity.
      apply IH; try done. intros ? ? ?; apply Hall; by right.
Qed.

Lemma dispatch_stops_at_first_failure_witness :
  dispatch (mkEnv [] (jan 5 11 30 0) 0 (channels_but 2))
    ([1%Z] ++ 2%Z :: [3%Z]) (mkEmbed "t" "u" "d" "i") (mkState no_files [])
  = (mkState no_files
       ([] ++ map (fun c => EvSend (channel_id c) (mkEmbed "t" "u" "d" "i"))
                (omap (channels_but 2) [1%Z])),
     Raise HTTPException).
Proof.
  apply (dispatch_stops_at_first_failure
           (mkEnv [] (jan 5 11 30 0) 0 (channels_but 2))
           [1%Z] [3%Z] 2%Z (mkChannel 2 false) (mkEmbed "t" "u" "d" "i")
           (mkState no_files [])).
  - intros i c [->|[]%elem_of_nil]%elem_of_cons [= <-]. reflexivity.
  - reflexivity.
  - reflexivity.
Defined.

(** X16. A chosen track whose album has no image makes
    [song_of_the_day] raise IndexError after selection has already
    written its state: the track is marked used (and a due override
    consumed), yet nothing is sent. *)
Theorem song_of_the_day_no_artwork
    (env : Env) (st st1 : State) (song : Track) :
  destinations (files st) <> [] ->
  pick_song env st = (st1, Ok (Some song)) ->
  track_images song = [] ->
  song_of_the_day env st = (st1, Raise IndexError)
  /\ track_id song ∈ used_set (files st1).
Proof.
  intros Hdest Hpick Himg. split.
  - unfold song_of_the_day.
    erewrite bind_ok by apply load_channel_config_run.
    rewrite bool_decide_eq_false_2 by done.
    erewrite bind_ok by exact Hpick. cbv beta iota.
    erewrite bind_raise; [reflexivity|].
    unfold make_embed. rewrite Himg. reflexivity.
  - destruct (pick_song_outcome env st)
      as [[_ H]|[(_ & _ & H)|[(k & v & _ & _ & _ & _ & H)
                             |(s & _ & _ & _ & _ & H)]]];
      cbv zeta in H; rewrite H in Hpick; try discriminate.
    + destruct (build_lookup (tracks env) !! v); [|discriminate].
      injection Hpick as <- <-. rewrite used_set_write_used.
      apply elem_of_union. left. by apply elem_of_singleton.
    + injection Hpick as <- <-. rewrite used_set_write_used.
      apply elem_of_union. left. by apply elem_of_singleton.
Qed.

Lemma song_of_the_day_no_artwork_witness :
  song_of_the_day
    (mkEnv [mkTrack "loc" "Local file" [] [] "u"] (jan 5 11 30 0) 0
       open_channels)
    (mkState (sample_files [] ∅) [])
  = (mkState (sample_files ["loc"] ∅) [EvWrite UsedSongs], Raise IndexError)
  /\ track_id (mkTrack "loc" "Local file" [] [] "u")
     ∈ used_set (sample_files ["loc"] ∅).
Proof.
  apply (song_of_the_day_no_artwork
           (mkEnv [mkTrack "loc" "Local file" [] [] "u"] (jan 5 11 30 0) 0
              open_channels)
           (mkState (sample_files [] ∅) [])
           (mkState (sample_files ["loc"] ∅) [EvWrite UsedSongs])
           (mkTrack "loc" "Local file" [] [] "u")).
  - discriminate.
  - vm_compute. reflexivity.
  - reflexivity.
Defined.
(** ** More on the scheduler *)

(** X17. While the stripped text of [last_run.txt] does not begin with
    a four-digit year (an empty or blank file, a word, a date written
    day first), every tick raises ValueError before anything else
    happens, in or out of the window: nothing is selected, sent or
    written, so the bot never posts until the file is repaired or
    removed. *)
Theorem scheduler_corrupt_last_run (env : Env) (st : State) (text : string) :
  last_run_txt (files st) = Some text ->
  has_year (strip text) = false ->
  scheduler env st = (st, Raise ValueError)
  /\ forall envs, envs <> [] ->
       run_ticks scheduler envs st = (st, Raise ValueError).
Proof.
  intros Htext Hbad. apply fromisoformat_no_year in Hbad.
  assert (forall e, scheduler e st = (st, Raise ValueError)) as Htick.
  { intros e. unfold scheduler.
    by erewrite bind_raise by (by apply (load_last_run_corrupt text)). }
  split; [apply Htick|].
  intros [|e envs] Hne; [done|]. cbn [run_ticks].
  by erewrite seq_raise by apply Htick.
Qed.

Lemma scheduler_corrupt_last_run_witness :
  scheduler sample_env
    (mkState (mkFiles None (Some (Json [("guild", 42%Z)])) (Some "05/01/2024")
                None None) [])
  = (mkState (mkFiles None (Some (Json [("guild", 42%Z)])) (Some "05/01/2024")
                None None) [], Raise ValueError)
  /\ forall envs, envs <> [] ->
       run_ticks scheduler envs
         (mkState (mkFiles None (Some (Json [("guild", 42%Z)]))
                     (Some "05/01/2024") None None) [])
       = (mkState (mkFiles None (Some (Json [("guild", 42%Z)]))
                     (Some "05/01/2024") None None) [], Raise ValueError).
Proof.
  apply (scheduler_corrupt_last_run sample_env
           (mkState (mkFiles None (Some (Json [("guild", 42%Z)]))
                       (Some "05/01/2024") None None) [])
           "05/01/2024"); reflexivity.
Defined.

(** X18. The day guard re-arms: after a firing recorded on one day, a
    tick in the window of another day fires again and records that
    day, provided both firings return. *)
Theorem scheduler_fires_again_next_day
    (env1 env2 : Env) (st st1 st2 : State) (last : option date) (b1 b2 : bool) :
  valid_date (dt_date (now env1)) ->
  in_window (now env1) = true ->
  in_window (now env2) = true ->
  dt_date (now env2) <> dt_date (now env1) ->
  load_last_run st = (st, Ok last) ->
  last <> Some (dt_date (now env1)) ->
  song_of_the_day env1 st = (st1, Ok b1) ->
  song_of_the_day env2 (write_last_run (dt_date (now env1)) st1)
  = (st2, Ok b2) ->
  run_ticks scheduler [env1; env2] st
  = (write_last_run (dt_date (now env2)) st2, Ok tt).
Proof.
  intros Hvalid Hin1 Hin2 Hday Hlast Hne Hrun1 Hrun2.
  cbn [run_ticks].
  erewrite seq_ok.
  2: { rewrite (scheduler_fires env1 st last Hlast Hne Hin1).
       erewrite seq_ok by exact Hrun1. apply save_last_run_run. }
  erewrite seq_ok; [reflexivity|].
  rewrite (scheduler_fires env2 _ (Some (dt_date (now env1)))).
  - erewrite seq_ok by exact Hrun2. apply save_last_run_run.
  - by apply load_last_run_written.
  - congruence.
  - done.
Qed.

Lemma scheduler_fires_again_next_day_witness :
  run_ticks scheduler
    [mkEnv [track_a; track_b] (jan 5 11 30 3) 0 open_channels;
     mkEnv [track_a; track_b] (jan 6 11 30 1) 0 open_channels]
    (mkState no_files [])
  = (write_last_run (mkdate 2024 1 6)
       (write_last_run (mkdate 2024 1 5) (mkState no_files [])), Ok tt).
Proof.
  apply (scheduler_fires_again_next_day
           (mkEnv [track_a; track_b] (jan 5 11 30 3) 0 open_channels)
           (mkEnv [track_a; track_b] (jan 6 11 30 1) 0 open_channels)
           (mkState no_files []) (mkState no_files [])
           (write_last_run (mkdate 2024 1 5) (mkState no_files []))
           None false false); try reflexivity; discriminate.
Defined.

(** ** Fetching the playlist *)

Lemma fetch_items_S client fuel items offset :
  fetch_items client (S fuel) items offset
  = match page_next (client offset) with
    | None => Some (items ++ page_items (client offset))%list
    | Some _ =>
        fetch_items client fuel (items ++ page_items (client offset))
          (offset + length (page_items (client offset)))
    end.
Proof. reflexivity. Qed.

Lemma fetch_items_paged all limit fuel items offset :
  0 < limit ->
  length all <= offset + S fuel * limit ->
  fetch_items (paged_client all limit) (S fuel) items offset
  = Some (items ++ drop offset all)%list.
Proof.
  intros Hlimit. revert items offset.
  induction fuel as [|fuel IH]; intros items offset Hfuel;
    rewrite fetch_items_S; cbn [paged_client page_items page_next];
    destruct (Nat.ltb_spec (offset + limit) (length all)) as [Hmore|Hlast];
    try lia.
  - f_equal. f_equal. apply take_ge. rewrite length_drop. lia.
  - rewrite length_take, length_drop.
    replace (offset + limit `min` (length all - offset))
      with (offset + limit) by lia.
    rewrite IH by lia.
    rewrite <- app_assoc. f_equal. f_equal.
    rewrite <- drop_drop. by rewrite take_drop.
  - f_equal. f_equal. apply take_ge. rewrite length_drop. lia.
Qed.

(** X19. Against a client that serves the playlist in pages of a fixed
    positive size, with a next link while items remain, the fetch loop
    ends and returns the tracks of all items in playlist order, each
    once, without the items whose track is null; one request more than
    the playlist has items is always enough. *)
Theorem get_all_tracks_paged
    (all : list (option Track)) (limit fuel : nat) :
  0 < limit -> length all < fuel ->
  get_all_tracks (paged_client all limit) fuel
  = Some (omap (fun i : option Track => i) all).
Proof.
  intros Hlimit Hfuel. unfold get_all_tracks.
  destruct fuel as [|fuel]; [lia|].
  rewrite fetch_items_paged; [done|done|]. nia.
Qed.

Lemma get_all_tracks_paged_witness :
  get_all_tracks
    (paged_client [Some track_a; None; Some track_b; Some track_a] 3) 5
  = Some (omap (fun i : option Track => i)
            [Some track_a; None; Some track_b; Some track_a]).
Proof. apply get_all_tracks_paged; cbn; lia. Defined.

(** X20. The loop advances the offset by the number of items received,
    so a page with no items that still carries a next link is requested
    again and again: the fetch never ends, whatever the bound on
    requests. *)
Theorem get_all_tracks_empty_page_loops
    (playlist_items : nat -> Page) (fuel : nat) :
  page_items (playlist_items 0) = [] ->
  page_next (playlist_items 0) <> None ->
  get_all_tracks playlist_items fuel = None.
Proof.
  intros Hitems Hnext. unfold get_all_tracks.
  assert (forall items, fetch_items playlist_items fuel items 0 = None) as ->;
    [|done].
  induction fuel as [|fuel IH]; intros items; [done|].
  cbn [fetch_items]. rewrite Hitems.
  destruct (page_next (playlist_items 0)); [|done].
  cbn [length]. rewrite Nat.add_0_r. apply IH.
Qed.

Lemma get_all_tracks_empty_page_loops_witness :
  get_all_tracks (fun _ => mkPage [] (Some "next")) 1000 = None.
Proof. by apply get_all_tracks_empty_page_loops. Defined.
(** ** Viewing the schedule *)

#[global] Instance item_le_total : Total item_le.
Proof.
  intros [a1 a2] [b1 b2]. unfold item_le. cbn [fst snd].
  rewrite (String.compare_antisym b1 a1).
  destruct (String.compare a1 b1); cbn [CompOpp]; auto.
  apply str_le_total.
Qed.

Lemma item_le_fst a b : item_le a b -> str_le (fst a) (fst b).
Proof.
  unfold item_le, str_le, String.leb.
  by destruct (String.compare (fst a) (fst b)).
Qed.

Lemma Sorted_weaken {A} (R R' : relation A) l :
  (forall a b, R a b -> R' a b) -> Sorted R l -> Sorted R' l.
Proof.
  intros Himp. induction 1 as [|x l _ IH Hhd]; constructor; [done|].
  destruct Hhd; constructor; auto.
Qed.

Lemma StronglySorted_weaken {A} (R R' : relation A) l :
  (forall a b, R a b -> R' a b) -> StronglySorted R l -> StronglySorted R' l.
Proof.
  intros Himp. induction 1 as [|x l _ IH Hall]; constructor; [done|].
  eapply Forall_impl; [exact Hall|]. auto.
Qed.

(** X21. [view_schedule] asks for no permission and changes no file.
    Its reply lists every scheduled override, one line each and none
    twice, in ascending order of the date strings, which for ISO dates
    is the order of the dates; with nothing scheduled it says so. *)
Theorem view_schedule_lists_in_order
    (interaction : Interaction) (st : State) :
  exists items,
    items ≡ₚ map_to_list (override_map (files st))
    /\ StronglySorted (fun a b => str_le (fst a) (fst b)) items
    /\ StronglySorted
         (fun a b => forall da db,
              fromisoformat (fst a) = Some da ->
              fromisoformat (fst b) = Some db -> date_le da db = true)
         items
    /\ view_schedule interaction st
       = (replied (if bool_decide (items = []) then "No scheduled songs."
                   else String.concat newline (map schedule_line items)) st,
          Ok tt).
Proof.
  exists (sorted_items (map_to_list (override_map (files st)))).
  assert (StronglySorted (fun a b : string * string => str_le (fst a) (fst b))
            (sorted_items (map_to_list (override_map (files st))))) as Hs.
  { apply Sorted_StronglySorted.
    - intros a b c Hab Hbc. by etrans.
    - apply (Sorted_weaken item_le); [apply item_le_fst|].
      apply (Sorted_merge_sort item_le). }
  split; [apply merge_sort_Permutation|]. split; [exact Hs|]. split.
  - eapply StronglySorted_weaken; [|exact Hs].
    intros a b Hle da db Hda Hdb.
    by rewrite <- (parsed_keys_leb _ _ _ _ Hda Hdb).
  - unfold view_schedule.
    erewrite bind_ok by apply load_scheduled_songs_run.
    by case_bool_decide.
Qed.

(** ** The id of a share link *)

Lemma append_cons x (s t : string) : String x s ++ t = String x (s ++ t).
Proof. reflexivity. Qed.

Lemma append_assoc (a b c : string) : (a ++ b) ++ c = a ++ (b ++ c).
Proof.
  induction a as [|x a IH]; [done|]. rewrite !append_cons. by rewrite IH.
Qed.

Lemma length_append (a b : string) :
  String.length (a ++ b) = String.length a + String.length b.
Proof.
  induction a as [|x a IH]; [done|].
  rewrite append_cons. cbn [String.length]. by rewrite IH.
Qed.

Lemma prefix_app_long p s rest :
  String.length p <= String.length s ->
  String.prefix p (s ++ rest) = String.prefix p s.
Proof.
  revert s. induction p as [|c p IH]; intros s Hlen.
  - destruct s; [change ("" ++ rest) with rest; by destruct rest|done].
  - destruct s as [|c' s]; [cbn in Hlen; lia|].
    change (String c' s ++ rest) with (String c' (s ++ rest)).
    cbn [String.prefix]. destruct (ascii_dec c c'); [|done].
    apply IH. cbn in Hlen. lia.
Qed.

Lemma prefix_self p rest : String.prefix p (p ++ rest) = true.
Proof.
  induction p as [|c p IH]; [by destruct rest|].
  change (String c p ++ rest) with (String c (p ++ rest)).
  cbn [String.prefix]. by destruct (ascii_dec c c).
Qed.

Lemma string_drop_app p rest : string_drop (String.length p) (p ++ rest) = rest.
Proof. induction p as [|c p IH]; [by destruct rest|]. exact IH. Qed.

(** When the first occurrence of [sep] in [base ++ sep] is the one at
    the end, it is also the first in any longer string. *)
Lemma cut_at_first sep base rest :
  sep <> "" ->
  before sep (base ++ sep) = base ->
  before sep (base ++ sep ++ rest) = base
  /\ after_first sep (base ++ sep ++ rest) = Some rest.
Proof.
  intros Hsep. induction base as [|c base IH]; intros Hclean.
  - change ("" ++ ?s) with s.
    destruct sep as [|c0 sep]; [done|].
    change (String c0 sep ++ rest) with (String c0 (sep ++ rest)).
    cbn [before after_first].
    change (String c0 (sep ++ rest)) with (String c0 sep ++ rest).
    rewrite prefix_self. split; [done|]. by rewrite string_drop_app.
  - change (String c base ++ ?s) with (String c (base ++ s)) in *.
    cbn [before after_first] in *.
    assert (String.prefix sep (String c (base ++ sep ++ rest))
            = String.prefix sep (String c (base ++ sep))) as Hpre.
    { change (String c (base ++ sep ++ rest))
        with (String c base ++ (sep ++ rest)).
      rewrite <- append_assoc. apply prefix_app_long.
      rewrite ?append_cons. cbn [String.length]. rewrite length_append. lia. }
    rewrite Hpre.
    destruct (String.prefix sep (String c (base ++ sep))); [done|].
    injection Hclean as Hclean. destruct (IH Hclean) as [-> ->]. done.
Qed.

Lemma before_skip c0 sep s t :
  has_char c0 s = false ->
  before (String c0 sep) (s ++ t) = s ++ before (String c0 sep) t.
Proof.
  induction s as [|x s IH]; [done|]. cbn [has_char].
  intros [Hx Hs]%orb_false_iff.
  change (String x s ++ ?u) with (String x (s ++ u)).
  cbn [before String.prefix].
  destruct (ascii_dec c0 x) as [->|_].
  - by rewrite Ascii.eqb_refl in Hx.
  - by rewrite IH.
Qed.

Lemma append_nil_r (s : string) : s ++ "" = s.
Proof.
  induction s as [|x s IH]; [done|]. rewrite append_cons. by rewrite IH.
Qed.

Lemma before_question id tail :
  has_char "?" id = false ->
  tail = "" \/ (exists q, tail = String "?" q) ->
  before "?" (id ++ tail) = id.
Proof.
  intros Hid Htail. rewrite before_skip by done.
  assert (before "?" tail = "") as ->; [|apply append_nil_r].
  destruct Htail as [->|[q ->]]; [done|].
  cbn [before String.prefix]. by destruct q.
Qed.

Lemma url_track_id_share_link base id tail :
  before "/track/" (base ++ "/track/") = base ->
  has_char "/" id = false ->
  has_char "?" id = false ->
  tail = "" \/ (exists q, tail = String "?" q) ->
  contains "/track/" (base ++ "/track/" ++ id ++ tail) = true
  /\ url_track_id (base ++ "/track/" ++ id ++ tail) = id.
Proof.
  intros Hbase Hslash Hquest Htail.
  destruct (cut_at_first "/track/" base (id ++ tail)) as [Hbefore Hafter];
    [done|done|].
  split.
  - clear -Hafter. revert Hafter.
    generalize (base ++ "/track/" ++ id ++ tail). intros s.
    induction s as [|x s IH]; [done|]. cbn [after_first contains].
    destruct (String.prefix "/track/" (String x s)); [done|].
    intros H. rewrite IH by done. apply orb_true_r.
  - unfold url_track_id. rewrite Hafter.
    rewrite (before_skip "/" "track/") by done.
    assert (before "?" (id ++ before "/track/" tail) = id) as Hcut; [|done].
    apply before_question; [done|].
    destruct Htail as [->|[q ->]]; [by left|right].
    cbn [before String.prefix]. destruct (ascii_dec "/" "?"); [done|]. eauto.
Qed.

(** X22. For a link of the usual form, some base in which "/track/"
    does not occur, then "/track/", then an id without "/" or "?", then
    nothing or "?" and a query, an allowed [schedule_song] with a date
    that parses stores exactly that id under the date. *)
Theorem schedule_song_share_link
    (interaction : Interaction) (date_str base id tail : string)
    (target : date) (st : State) :
  permitted interaction (files st) = true ->
  fromisoformat date_str = Some target ->
  before "/track/" (base ++ "/track/") = base ->
  has_char "/" id = false ->
  has_char "?" id = false ->
  tail = "" \/ (exists q, tail = String "?" q) ->
  override_map
    (files (fst (schedule_song interaction date_str
                   (base ++ "/track/" ++ id ++ tail) st)))
  !! date_str = Some id.
Proof.
  intros Hok Hdate Hbase Hslash Hquest Htail.
  destruct (url_track_id_share_link base id tail) as [Hin Hid]; try done.
  rewrite (schedule_song_ok _ _ _ target) by done.
  cbn [fst replied files]. rewrite override_map_write_scheduled, Hid.
  apply lookup_insert_eq.
Qed.

Lemma schedule_song_share_link_witness :
  override_map
    (files (fst (schedule_song admin "2024-06-01"
                   ("https://open.spotify.com" ++ "/track/"
                    ++ "4uLU6hMCjMI75M1A2tKUQC" ++ "?si=abc/track/def")
                   (mkState no_files []))))
  !! "2024-06-01" = Some "4uLU6hMCjMI75M1A2tKUQC".
Proof.
  apply (schedule_song_share_link admin "2024-06-01"
           "https://open.spotify.com" "4uLU6hMCjMI75M1A2tKUQC"
           "?si=abc/track/def" (mkdate 2024 6 1) (mkState no_files []));
    try reflexivity.
  right. eexists. reflexivity.
Defined.
(** ** The earlier bot, further *)




(** X25. In the earlier bot, with a channel configured and some catalog
    track not yet used, [song_of_the_day] picks one of the unused
    tracks, the one the draw indexes among them, and adds its id to the
    used-set, which grows by exactly that id. *)
Theorem Bot_song_of_the_day_picks_unused
    (env : Env) (st : State) (cfg : list (string * Z)) :
  channel_config_json (files st) = Some (Json cfg) -> cfg <> [] ->
  unused_tracks (used_set (files st)) (tracks env) <> [] ->
  exists song,
    unused_tracks (used_set (files st)) (tracks env)
      !! (draw env
          mod length (unused_tracks (used_set (files st)) (tracks env)))
    = Some song
    /\ song ∈ tracks env
    /\ (track_id song ∉ used_set (files st))
    /\ used_set (files (fst (Bot.song_of_the_day env st)))
       = {[track_id song]} ∪ used_set (files st).
Proof.
  intros Hcfg Hne Hun.
  set (unused := unused_tracks (used_set (files st)) (tracks env)) in *.
  destruct (lookup_lt_is_Some_2 unused (draw env mod length unused))
    as [song Hsong].
  { apply Nat.mod_upper_bound. by destruct unused. }
  exists song. split; [done|].
  pose proof (list_elem_of_lookup_2 _ _ _ Hsong) as Hin.
  apply unused_tracks_elem_of in Hin as [Hfresh Hin].
  split; [done|]. split; [done|].
  assert (tracks env <> []) as Hts by (by destruct (tracks env)).
  unfold Bot.song_of_the_day.
  destruct (Bot_load_channel_config_run st) as (r & Hload_cfg & Hr).
  rewrite (Hr cfg Hcfg) in Hload_cfg.
  erewrite bind_ok by exact Hload_cfg.
  rewrite (bool_decide_eq_false_2 _ Hne).
  destruct (Bot_load_used_songs_run st) as (st' & Hload & Hused & _).
  erewrite bind_ok by exact Hload.
  rewrite (bool_decide_eq_false_2 _ Hts).
  fold (unused_tracks (used_set (files st)) (tracks env)). fold unused.
  rewrite (bool_decide_eq_false_2 _ Hun).
  erewrite bind_ok by (unfold random_choice; rewrite Hsong; reflexivity).
  erewrite seq_ok by apply save_used_songs_run.
  unfold bind.
  destruct (make_embed song _) as [s1 [embed|e]] eqn:Hembed;
    apply make_embed_state in Hembed as ->.
  - destruct (dispatch env (map snd cfg) embed _) as [s2 r2] eqn:Hd.
    apply dispatch_sends in Hd as [Hf _]. cbn [fst]. rewrite Hf.
    cbn [files]. by rewrite used_set_saved.
  - cbn [fst files]. by rewrite used_set_saved.
Qed.

Lemma Bot_song_of_the_day_picks_unused_witness :
  exists song,
    unused_tracks (used_set (sample_files ["aaa"] ∅)) [track_a; track_b]
      !! (7 mod length (unused_tracks (used_set (sample_files ["aaa"] ∅))
                          [track_a; track_b]))
    = Some song
    /\ song ∈ [track_a; track_b]
    /\ (track_id song ∉ used_set (sample_files ["aaa"] ∅))
    /\ used_set (files (fst (Bot.song_of_the_day sample_env
                               (mkState (sample_files ["aaa"] ∅) []))))
       = {[track_id song]} ∪ used_set (sample_files ["aaa"] ∅).
Proof.
  apply (Bot_song_of_the_day_picks_unused sample_env
           (mkState (sample_files ["aaa"] ∅) []) [("guild", 42%Z)]).
  - reflexivity.
  - discriminate.
  - vm_compute. discriminate.
Defined.

(** X26. The earlier scheduler's window is the whole minute, so only
    the day guard keeps the ticks that follow a firing from firing
    again: after a tick at the configured hour and minute whose firing
    returns, today is recorded and every later tick of that day, at any
    second, does nothing. *)
Theorem Bot_scheduler_once_per_day
    (env : Env) (later : list Env) (st st1 : State) (last : option date) :
  valid_date (dt_date (now env)) ->
  Forall (fun e => dt_date (now e) = dt_date (now env)) later ->
  load_last_run st = (st, Ok last) ->
  last <> Some (dt_date (now env)) ->
  hour (now env) = Bot.POST_HOUR ->
  minute (now env) = Bot.POST_MINUTE ->
  Bot.song_of_the_day env st = (st1, Ok tt) ->
  Bot.scheduler env st = (write_last_run (dt_date (now env)) st1, Ok tt)
  /\ run_ticks Bot.scheduler (env :: later) st
     = (write_last_run (dt_date (now env)) st1, Ok tt).
Proof.
  intros Hvalid Hlater Hlast Hne Hh Hm Hrun.
  assert (Bot.scheduler env st
          = (write_last_run (dt_date (now env)) st1, Ok tt)) as Hfire.
  { unfold Bot.scheduler.
    rewrite (bind_ok _ _ _ _ _ Hlast), Hh, Hm, !N.eqb_refl.
    cbn [andb]. rewrite bool_decide_eq_false_2 by done. cbn [negb].
    erewrite seq_ok by exact Hrun. apply save_last_run_run. }
  split; [done|]. cbn [run_ticks]. erewrite seq_ok by exact Hfire.
  assert (load_last_run (write_last_run (dt_date (now env)) st1)
          = (write_last_run (dt_date (now env)) st1,
             Ok (Some (dt_date (now env))))) as Hrec
    by (by apply load_last_run_written).
  clear -Hlater Hrec. induction Hlater as [|e later He _ IH]; [done|].
  cbn [run_ticks]. erewrite seq_ok; [exact IH|].
  apply Bot_scheduler_skips. by rewrite He.
Qed.

Lemma Bot_scheduler_once_per_day_witness :
  Bot.scheduler (mkEnv [track_a; track_b] (jan 5 10 0 0) 7 open_channels)
    (mkState no_files [])
  = (write_last_run (mkdate 2024 1 5) (mkState no_files []), Ok tt)
  /\ run_ticks Bot.scheduler
       [mkEnv [track_a; track_b] (jan 5 10 0 0) 7 open_channels;
        mkEnv [track_a; track_b] (jan 5 10 0 10) 7 open_channels;
        mkEnv [track_a; track_b] (jan 5 10 0 50) 7 open_channels]
       (mkState no_files [])
     = (write_last_run (mkdate 2024 1 5) (mkState no_files []), Ok tt).
Proof.
  apply (Bot_scheduler_once_per_day
           (mkEnv [track_a; track_b] (jan 5 10 0 0) 7 open_channels)
           [mkEnv [track_a; track_b] (jan 5 10 0 10) 7 open_channels;
            mkEnv [track_a; track_b] (jan 5 10 0 50) 7 open_channels]
           (mkState no_files []) (mkState no_files []) None);
    try reflexivity; [repeat constructor|discriminate].
Defined.

(** X27. The earlier bot's [testsong] neither reads nor writes the
    last-run date: run on files that differ only in [last_run.txt] it
    does the same and leaves that file as it found it. *)
Theorem Bot_testsong_frame (env : Env) (st : State) :
  (forall c,
     Bot.testsong env (with_last_run c st)
     = (with_last_run c (fst (Bot.testsong env st)),
        snd (Bot.testsong env st)))
  /\ last_run_txt (files (fst (Bot.testsong env st)))
     = last_run_txt (files st).
Proof.
  split.
  - intros c. apply Bot_testsong_ignores_last_run.
  - apply ignores_last_run_unwritten, Bot_testsong_ignores_last_run.
Qed.
